(** * cloudigest: the retrieval-augmented answering core (package [rag])

    A shallow embedding of [pkg/rag/rag.go] -- the [RAG] type with
    [AddDocument], [Query], [getEmbedding], [splitIntoChunks],
    [findRelevantDocuments], [buildContext], [generateAnswer],
    [cosineSimilarity], [sqrt], [SetChunkSize] and [SetMaxTokens] -- and the
    properties its specification states about them.

    The repository carries two generations of the package.  The later one
    (with [NewRAGWithClaude] and the [useOpenAI] flag) is embedded here; the
    earlier one is its [useOpenAI = true] branch. *)

From Stdlib Require Import ZArith List String Ascii Bool Lia.
From Stdlib Require Import Floats.SpecFloat.
From stdpp Require Import gmap.
Import ListNotations.

Local Open Scope Z_scope.

(** ** float32

    Go's [float32] is IEEE-754 binary32: 24 bits of precision, infinities at
    exponent 128.  Values are [spec_float]s and the operations are the
    Standard Library's specification of IEEE arithmetic at that format, each
    operation rounded on its own (no fused multiply-add, as on amd64).  A
    division by zero does not panic: it gives an infinity or NaN. *)

Module F32.

Definition float32 : Type := spec_float.

Definition prec : Z := 24.
Definition emax : Z := 128.

Definition zero : float32 := S754_zero false.
Definition nan : float32 := S754_nan.

Definition add : float32 -> float32 -> float32 := SFadd prec emax.
Definition mul : float32 -> float32 -> float32 := SFmul prec emax.
Definition div : float32 -> float32 -> float32 := SFdiv prec emax.
Definition ltb : float32 -> float32 -> bool := SFltb.
Definition leb : float32 -> float32 -> bool := SFleb.
Definition eqb : float32 -> float32 -> bool := SFeqb.

  (** A conversion between binary formats rounds the value to the target
      format; zeros, infinities and NaN carry over. *)
Definition convert (p e : Z) (x : spec_float) : spec_float :=
    match x with
    | S754_finite s m ex => binary_round p e s m ex
    | _ => x
    end.

Definition to_float64 : float32 -> spec_float := convert 53 1024.
Definition of_float64 : spec_float -> float32 := convert prec emax.

  (** The float32 nearest to [m * 2^e]; used for literals. *)
Definition lit (m e : Z) : float32 := binary_normalize prec emax m e false.

Definition is_zero (x : float32) : bool :=
    match x with S754_zero _ => true | _ => false end.

Definition is_nan (x : float32) : bool :=
    match x with S754_nan => true | _ => false end.

Definition is_inf (x : float32) : bool :=
    match x with S754_infinity _ => true | _ => false end.

End F32.

Abbreviation float32 := F32.float32.

(** ** cosineSimilarity and sqrt *)

(** [func sqrt(x float32) float32 { return float32(float64(x)) }] *)
Definition sqrt (x : float32) : float32 := F32.of_float64 (F32.to_float64 x).

(** The loop [for i := range a] of [cosineSimilarity], reading [a[i]] and
    [b[i]] in step.  [None] is the run-time panic (index out of range) of
    [b[i]] when [b] is shorter than [a]. *)
Fixpoint cosineLoop (a b : list float32) (acc : float32 * float32 * float32)
  : option (float32 * float32 * float32) :=
  match a with
  | [] => Some acc
  | ai :: a' =>
      match b with
      | [] => None
      | bi :: b' =>
          let '(dotProduct, normA, normB) := acc in
          cosineLoop a' b'
            (F32.add dotProduct (F32.mul ai bi),
             F32.add normA (F32.mul ai ai),
             F32.add normB (F32.mul bi bi))
      end
  end.

Definition cosineSimilarity (a b : list float32) : option float32 :=
  match cosineLoop a b (F32.zero, F32.zero, F32.zero) with
  | None => None
  | Some (dotProduct, normA, normB) =>
      Some (F32.div dotProduct (F32.mul (sqrt normA) (sqrt normB)))
  end.


(** ** Go strings, strings.Fields and strings.Join

    A Go string is modelled as the sequence of runes (Unicode code points)
    that ranging over it yields.  [strings.Fields] splits around runs of
    white space as [unicode.IsSpace] defines it. *)

Definition rune : Type := N.
Definition text : Type := list rune.

(** ASCII literals. *)
Definition runes (s : string) : text := map N_of_ascii (list_ascii_of_string s).

(** [unicode.IsSpace]: in Latin-1 the runes '\t' '\n' '\v' '\f' '\r' ' '
    U+0085 U+00A0; beyond it the White_Space property. *)
Definition isSpace (r : rune) : bool :=
  ((9 <=? r) && (r <=? 13) || (r =? 32) || (r =? 0x85) || (r =? 0xA0)
   || (r =? 0x1680) || (0x2000 <=? r) && (r <=? 0x200a)
   || (r =? 0x2028) || (r =? 0x2029) || (r =? 0x202f) || (r =? 0x205f)
   || (r =? 0x3000))%N.

(** The scan of [strings.FieldsFunc]: [start] is the field being read
    ([None] when the scan is between fields, the code's [start < 0]). *)
Fixpoint fieldsFrom (start : option text) (s : text) : list text :=
  match s with
  | [] => match start with Some w => [w] | None => [] end
  | r :: s' =>
      if isSpace r then
        match start with
        | Some w => w :: fieldsFrom None s'
        | None => fieldsFrom None s'
        end
      else
        match start with
        | Some w => fieldsFrom (Some (w ++ [r])) s'
        | None => fieldsFrom (Some [r]) s'
        end
  end.

Definition Fields (s : text) : list text := fieldsFrom None s.

(** [strings.Join(elems, sep)]. *)
Fixpoint Join (elems : list text) (sep : text) : text :=
  match elems with
  | [] => []
  | [e] => e
  | e :: rest => e ++ sep ++ Join rest sep
  end.

Definition space : text := [32%N].
Definition newline : text := [10%N].

(** ** The data model *)

Record Document := mkDocument {
  Content : text;
  Source : text;
  Type_ : text          (* "article", "documentation", "diagram", etc. *)
}.

(** A client of an external service, identified by the key it was made with;
    a [nil] client is [None]. *)
Definition Client : Type := text.

Record RAG := mkRAG {
  openaiClient : option Client;
  claudeClient : option Client;
  documents : list Document;
  embeddings : gmap text (list float32);
  chunkSize : Z;
  maxTokens : Z;
  useOpenAI : bool
}.

Definition NewRAG (apiKey : text) : RAG :=
  {| openaiClient := Some apiKey;
     claudeClient := None;
     documents := [];
     embeddings := ∅;
     chunkSize := 1000;
     maxTokens := 4000;
     useOpenAI := true |}.

Definition NewRAGWithClaude (claudeKey : text) : RAG :=
  {| openaiClient := None;
     claudeClient := Some claudeKey;
     documents := [];
     embeddings := ∅;
     chunkSize := 1000;
     maxTokens := 4000;
     useOpenAI := false |}.

(** ** The external services

    The OpenAI and Anthropic clients are the program's only contact with the
    outside.  A [Backend] gives the replies of the services as functions of
    the request and of the state of the outside world, which a call may
    change.  A Go [error] is its message. *)

Inductive result (A : Type) : Type :=
| Value (a : A)
| Err (msg : string).
Arguments Value {A} a.
Arguments Err {A} msg.

Module openai.
Record EmbeddingRequest := { Input : list text; EmbeddingModel : text }.
Record ChatCompletionMessage := { Role : text; Content : text }.
Record ChatCompletionRequest := {
    Model : text;
    Messages : list ChatCompletionMessage;
    MaxTokens : Z
  }.
Definition AdaEmbeddingV2 : text := runes "text-embedding-ada-002".
Definition GPT4o : text := runes "gpt-4o".
Definition ChatMessageRoleSystem : text := runes "system".
Definition ChatMessageRoleUser : text := runes "user".
End openai.

Module anthropic.
Record MessagesRequest := {
    Model : text;
    Messages : list text;          (* user text messages *)
    MaxTokens : Z
  }.
Definition ModelClaude3Dot7SonnetLatest : text :=
    runes "claude-3-7-sonnet-latest".
End anthropic.

Record Backend := {
  World : Type;
  (** [resp.Data], the embedding of each entry, or the error *)
  CreateEmbeddings :
    Client -> openai.EmbeddingRequest -> World ->
    result (list (list float32)) * World;
  (** [resp.Choices], the message content of each choice, or the error *)
  CreateChatCompletion :
    Client -> openai.ChatCompletionRequest -> World ->
    result (list text) * World;
  (** [resp.GetFirstContentText()], or the error *)
  CreateMessages :
    Client -> anthropic.MessagesRequest -> World -> result text * World
}.

(** ** Methods of [*RAG]: a state monad over the receiver and the world,
    with run-time panics *)

Inductive outcome (A : Type) : Type :=
| Returns (a : A)
| Panics.
Arguments Returns {A} a.
Arguments Panics {A}.

Definition M (B : Backend) (A : Type) : Type :=
  RAG * World B -> outcome A * (RAG * World B).

Global Instance M_ret {B} : MRet (M B) := fun A a st => (Returns a, st).

Global Instance M_bind {B} : MBind (M B) := fun A A' f m st =>
  match m st with
  | (Returns a, st') => f a st'
  | (Panics, st') => (Panics, st')
  end.

Definition getRAG {B} : M B RAG := fun st => (Returns (fst st), st).

Definition setRAG {B} (r : RAG) : M B unit := fun st => (Returns tt, (r, snd st)).

Definition panic {B A} : M B A := fun st => (Panics, st).

(** A call to an external service. *)
Definition call {B A} (f : World B -> A * World B) : M B A := fun st =>
  let '(a, w) := f (snd st) in (Returns a, (fst st, w)).

(** ** The methods *)

Definition Errorf (prefix err : string) : string := String.append prefix err.

Section Methods.
Context {B : Backend}.

(** [getEmbedding]: embeddings always come from OpenAI; in Claude mode the
    method returns its error before any client is used. *)
Definition getEmbedding (t : text) : M B (result (list float32)) :=
  r ← getRAG;
  if useOpenAI r then
    match openaiClient r with
    | None => panic                       (* call through a nil client *)
    | Some client =>
        resp ← call (CreateEmbeddings B client
                       {| openai.Input := [t];
                          openai.EmbeddingModel := openai.AdaEmbeddingV2 |});
        match resp with
        | Err err => mret (Err err)
        | Value data =>
            match data with
            | [] => panic                 (* resp.Data[0] out of range *)
            | embedding :: _ => mret (Value embedding)
            end
        end
    end
  else
    mret (Err "Claude mode requires an OpenAI API key for embeddings - this is not implemented yet").

(** One turn of the loop of [splitIntoChunks]. *)
Definition chunkStep (size : Z) (st : list text * list text) (word : text)
  : list text * list text :=
  let '(chunks, currentChunk) := st in
  let currentChunk := currentChunk ++ [word] in
  if Z.of_nat (length currentChunk) >=? size
  then (chunks ++ [Join currentChunk space], [])
  else (chunks, currentChunk).

Definition splitIntoChunks (r : RAG) (t : text) : list text :=
  let words := Fields t in
  let '(chunks, currentChunk) := fold_left (chunkStep (chunkSize r)) words ([], []) in
  if (0 <? length currentChunk)%nat
  then chunks ++ [Join currentChunk space]
  else chunks.

(** The body of the loop of [AddDocument], for the chunks still to add. *)
Fixpoint addChunks (doc : Document) (chunks : list text) : M B (option string) :=
  match chunks with
  | [] => mret None
  | chunk :: rest =>
      e ← getEmbedding chunk;
      match e with
      | Err err => mret (Some (Errorf "failed to get embedding: " err))
      | Value embedding =>
          r ← getRAG;
          setRAG {| openaiClient := openaiClient r;
                    claudeClient := claudeClient r;
                    documents := documents r ++
                      [{| Content := chunk; Source := Source doc; Type_ := Type_ doc |}];
                    embeddings := <[chunk := embedding]> (embeddings r);
                    chunkSize := chunkSize r;
                    maxTokens := maxTokens r;
                    useOpenAI := useOpenAI r |};;
          addChunks doc rest
      end
  end.

Definition AddDocument (doc : Document) : M B (option string) :=
  r ← getRAG;
  addChunks doc (splitIntoChunks r (Content doc)).

Record docScore := { doc : Document; score : float32 }.

(** [r.embeddings[doc.Content]]: a missing key reads as the nil slice. *)
Definition embeddingOf (r : RAG) (d : Document) : list float32 :=
  default [] (embeddings r !! Content d).

(** The scoring loop of [findRelevantDocuments]; a panic of
    [cosineSimilarity] ends it. *)
Fixpoint scoreLoop (r : RAG) (queryEmbedding : list float32)
    (docs : list Document) (scores : list docScore) : outcome (list docScore) :=
  match docs with
  | [] => Returns scores
  | d :: rest =>
      match cosineSimilarity queryEmbedding (embeddingOf r d) with
      | None => Panics
      | Some similarity =>
          scoreLoop r queryEmbedding rest
            (scores ++ [{| doc := d; score := similarity |}])
      end
  end.

(** [findRelevantDocuments]: the scores are computed and, with the sort
    "omitted for brevity", the first three entries are returned. *)
Definition findRelevantDocuments (r : RAG) (queryEmbedding : list float32)
  : outcome (list Document) :=
  match scoreLoop r queryEmbedding (documents r) [] with
  | Panics => Panics
  | Returns scores => Returns (map doc (take 3 scores))
  end.

Definition buildContext (r : RAG) (docs : list Document) : text :=
  fold_left
    (fun context d =>
       (context ++ (runes "Source: " ++ Source d ++ newline))
         ++ (Content d ++ newline ++ newline))
    docs
    (runes "Based on the following information:" ++ newline ++ newline).

Definition systemPrompt : text :=
  runes "You are an infrastructure optimization expert. Use the provided context to answer questions about infrastructure, "
  ++ runes "services, and container deployments. Provide clear, actionable recommendations without implementing them directly.".

Definition generateAnswer (ctx question : text) : M B (result text) :=
  r ← getRAG;
  if useOpenAI r then
    match openaiClient r with
    | None => panic
    | Some client =>
        resp ← call (CreateChatCompletion B client
                       {| openai.Model := openai.GPT4o;
                          openai.Messages :=
                            [ {| openai.Role := openai.ChatMessageRoleSystem;
                                 openai.Content := systemPrompt |};
                              {| openai.Role := openai.ChatMessageRoleUser;
                                 openai.Content :=
                                   ctx ++ newline ++ newline ++ runes "Question: " ++ question |} ];
                          openai.MaxTokens := maxTokens r |});
        match resp with
        | Err err => mret (Err err)
        | Value choices =>
            match choices with
            | [] => panic                 (* resp.Choices[0] out of range *)
            | content :: _ => mret (Value content)
            end
        end
    end
  else
    match claudeClient r with
    | None => panic
    | Some client =>
        let promptText :=
          systemPrompt ++ newline ++ newline
          ++ ctx ++ newline ++ newline ++ runes "Question: " ++ question in
        resp ← call (CreateMessages B client
                       {| anthropic.Model := anthropic.ModelClaude3Dot7SonnetLatest;
                          anthropic.Messages := [promptText];
                          anthropic.MaxTokens := maxTokens r |});
        match resp with
        | Err err => mret (Err err)
        | Value content => mret (Value content)
        end
    end.

Definition Query (question : text) : M B (result text) :=
  e ← getEmbedding question;
  match e with
  | Err err => mret (Err (Errorf "failed to get question embedding: " err))
  | Value questionEmbedding =>
      r ← getRAG;
      match findRelevantDocuments r questionEmbedding with
      | Panics => panic
      | Returns relevantDocs =>
          let context := buildContext r relevantDocs in
          generateAnswer context question
      end
  end.

(** [SetChunkSize] sets the chunk size for document splitting. *)
Definition SetChunkSize (size : Z) : M B unit :=
  r ← getRAG;
  setRAG {| openaiClient := openaiClient r;
            claudeClient := claudeClient r;
            documents := documents r;
            embeddings := embeddings r;
            chunkSize := size;
            maxTokens := maxTokens r;
            useOpenAI := useOpenAI r |}.

(** [SetMaxTokens] sets the maximum number of tokens for the API calls. *)
Definition SetMaxTokens (tokens : Z) : M B unit :=
  r ← getRAG;
  setRAG {| openaiClient := openaiClient r;
            claudeClient := claudeClient r;
            documents := documents r;
            embeddings := embeddings r;
            chunkSize := chunkSize r;
            maxTokens := tokens;
            useOpenAI := useOpenAI r |}.

(** The configuration step of the callers (the query and scan commands of
    package [cmd]): a setter is invoked only with a positive value from the
    configuration. *)
Definition applyConfig (configChunkSize configMaxTokens : Z) : M B unit :=
  (if configChunkSize >? 0 then SetChunkSize configChunkSize else mret tt);;
  (if configMaxTokens >? 0 then SetMaxTokens configMaxTokens else mret tt).

End Methods.

(** ** Vocabulary of the properties, sample backends and inputs *)

Definition nonSpace (w : text) : Prop := Forall (fun c => isSpace c = false) w.

Definition isWord (w : text) : Prop := w <> [] /\ nonSpace w.

(** The whitespace-normalized form of a text and its number of words. *)
Definition normalize (t : text) : text := Join (Fields t) space.
Definition wordCount (t : text) : nat := length (Fields t).

(** [ceil (a / b)] on integers, for [b > 0]. *)
Definition ceilDiv (a b : Z) : Z := (a + b - 1) / b.

Definition joinWords (g : list text) : text := Join g space.

(** An orchestrator whose services are unreachable: every call fails. *)
Definition offline : Backend := {|
  World := unit;
  CreateEmbeddings := fun _ _ w => (Err "offline", w);
  CreateChatCompletion := fun _ _ w => (Err "offline", w);
  CreateMessages := fun _ _ w => (Err "offline", w)
|}.

(** [NewRAG] followed by [SetChunkSize n]. *)
Definition withChunkSize (n : Z) : RAG :=
  fst (snd (@SetChunkSize offline n (NewRAG (runes "key"), tt))).

(** The index entry [AddDocument] makes of a chunk of [doc]. *)
Definition chunkDoc (d : Document) (chunk : text) : Document :=
  {| Content := chunk; Source := Source d; Type_ := Type_ d |}.

(** The embeddings map after the assignments [m[chunk] = embedding], in
    order. *)
Definition store (m : gmap text (list float32))
    (entries : list (text * list float32)) : gmap text (list float32) :=
  fold_left (fun m ce => <[ce.1 := ce.2]> m) entries m.

(** The receiver after the chunks of [entries], with their embeddings, have
    been indexed for document [d]. *)
Definition indexed (r : RAG) (d : Document)
    (entries : list (text * list float32)) : RAG :=
  {| openaiClient := openaiClient r;
     claudeClient := claudeClient r;
     documents := documents r ++ map (chunkDoc d) (entries.*1);
     embeddings := store (embeddings r) entries;
     chunkSize := chunkSize r;
     maxTokens := maxTokens r;
     useOpenAI := useOpenAI r |}.

(** [Embedded r entries w w']: from world [w] the embedding calls for the
    chunks of [entries], made in order, return the embeddings paired with
    them and leave the world [w']. *)
Inductive Embedded {B : Backend} (r : RAG)
  : list (text * list float32) -> World B -> World B -> Prop :=
| Embedded_nil w : Embedded r [] w w
| Embedded_cons chunk embedding entries w w1 w2 :
    getEmbedding chunk (r, w) = (Returns (Value embedding), (r, w1)) ->
    Embedded r entries w1 w2 ->
    Embedded r ((chunk, embedding) :: entries) w w2.

(** A backend whose third embedding call fails; the world counts the calls. *)
Definition flaky : Backend := {|
  World := nat;
  CreateEmbeddings := fun _ _ calls =>
    (if Nat.eqb calls 2 then Err "quota exceeded" else Value [[F32.lit 1 0]],
     S calls);
  CreateChatCompletion := fun _ _ calls => (Value [runes "ok"], calls);
  CreateMessages := fun _ _ calls => (Value (runes "ok"), calls)
|}.

Definition fiveWords : Document :=
  {| Content := runes "a b c d e"; Source := runes "notes"; Type_ := runes "article" |}.

(** The number of entries of the embeddings map under the key [c], and the
    number of entries of the chunk list with content [c]. *)
Definition embeddingEntries (r : RAG) (c : text) : nat :=
  length (filter (fun kv => kv.1 = c) (map_to_list (embeddings r))).

Definition chunkEntries (r : RAG) (c : text) : nat :=
  length (filter (fun x => Content x = c) (documents r)).

Definition occurrences (c : text) (chunks : list text) : nat :=
  length (filter (fun x => x = c) chunks).

(** A backend that embeds every text as the same vector. *)
Definition constant : Backend := {|
  World := unit;
  CreateEmbeddings := fun _ _ w => (Value [[F32.lit 1 0; F32.zero]], w);
  CreateChatCompletion := fun _ _ w => (Value [runes "ok"], w);
  CreateMessages := fun _ _ w => (Value (runes "ok"), w)
|}.

(** A backend that embeds a text by its subject: unit vectors, so that the
    score against the query "scaling" is [1] for "scaling", [-1] for
    "storage" and [0] for any other text. *)
Definition bySubject (t : text) : list float32 :=
  if decide (t = runes "scaling") then [F32.lit 1 0; F32.zero]
  else if decide (t = runes "storage") then [F32.lit (-1) 0; F32.zero]
  else [F32.zero; F32.lit 1 0].

Definition subjects : Backend := {|
  World := unit;
  CreateEmbeddings := fun _ req w => (Value (map bySubject (openai.Input req)), w);
  CreateChatCompletion := fun _ _ w => (Value [runes "ok"], w);
  CreateMessages := fun _ _ w => (Value (runes "ok"), w)
|}.

Definition note (subject : string) : Document :=
  {| Content := runes subject; Source := runes "notes"; Type_ := runes "article" |}.

(** The index after the notes on storage, network, billing and scaling have
    been added, in this order, to a new orchestrator. *)
Definition fourNotes : RAG :=
  (snd (@AddDocument subjects (note "scaling")
   (snd (@AddDocument subjects (note "billing")
   (snd (@AddDocument subjects (note "network")
   (snd (@AddDocument subjects (note "storage")
          (NewRAG (runes "key"), tt))))))))).1.

Definition zeroOrNan (x : float32) : bool := F32.is_zero x || F32.is_nan x.

Definition allZero (v : list float32) : Prop :=
  Forall (fun x => F32.is_zero x = true) v.

(** ** Further vocabulary: the index, the context and the callers *)

(** Every chunk of the chunk list has an entry in the embeddings map. *)
Definition indexCovered (r : RAG) : Prop :=
  forall d, d ∈ documents r -> is_Some (embeddings r !! Content d).

(** The first line of every context, and the lines [buildContext] writes for
    one document. *)
Definition preamble : text :=
  runes "Based on the following information:" ++ newline ++ newline.

Definition contextEntry (d : Document) : text :=
  (runes "Source: " ++ Source d ++ newline) ++ (Content d ++ newline ++ newline).

Definition blank : Document :=
  {| Content := runes "   "; Source := runes "notes"; Type_ := runes "article" |}.

(** ** The query command (package [cmd])

    The parts of the command that prepare the orchestrator and load the
    knowledge base. *)

(** [claudeKey != "" && claudeKey != "your-claude-api-key-here"] *)
Definition useClaudeIfAvailable (claudeKey : text) : bool :=
  negb (bool_decide (claudeKey = []))
  && negb (bool_decide (claudeKey = runes "your-claude-api-key-here")).

(** The orchestrator the command makes from the two keys. *)
Definition newRAGSystem (openAIKey claudeKey : text) : RAG :=
  if useClaudeIfAvailable claudeKey
  then NewRAGWithClaude claudeKey
  else NewRAG openAIKey.

(** The documents of [loadExampleDocuments]. *)
Definition exampleDocuments : list Document :=
  [ {| Content :=
         runes "Kubernetes is a portable, extensible, open source platform for managing containerized workloads and services. "
         ++ runes "The best practices for deploying Kubernetes include: using a managed Kubernetes service like GKE, EKS, or AKS; "
         ++ runes "implementing proper resource requests and limits; setting up monitoring and alerting; using Helm for package management; "
         ++ runes "and implementing a robust CI/CD pipeline for deployments.";
       Source := runes "Kubernetes Best Practices";
       Type_ := runes "documentation" |};
    {| Content :=
         runes "When optimizing AWS EC2 costs, consider: using Reserved Instances for predictable workloads; "
         ++ runes "implementing auto-scaling groups; choosing the right instance types; regularly reviewing and terminating unused resources; "
         ++ runes "using Spot Instances for fault-tolerant workloads; and leveraging AWS Cost Explorer for detailed analysis.";
       Source := runes "AWS Cost Optimization Guide";
       Type_ := runes "article" |};
    {| Content :=
         runes "Container security best practices include: scanning images for vulnerabilities; using minimal base images; "
         ++ runes "implementing network policies; running containers with least privileges; using immutable infrastructure; "
         ++ runes "and implementing a zero-trust security model.";
       Source := runes "Container Security Guidelines";
       Type_ := runes "documentation" |} ].

(** A configured document source. *)
Module cmd.
Record RAGSource := { URL : text; Type_ : text; Name : text }.
End cmd.

(** What the command reaches besides the two services: the configuration
    ([viper.UnmarshalKey "rag.sources"]), the standard output, and HTTP
    ([http.Get], [ioutil.ReadAll] and [Close] of a response body). *)
Record Host (B : Backend) := {
  Body : Type;
  UnmarshalSources : World B -> result (list cmd.RAGSource) * World B;
  Stdout : text -> World B -> World B;
  Get : text -> World B -> result Body * World B;
  ReadAll : Body -> World B -> result text * World B;
  Close : Body -> World B -> World B
}.
Arguments Body {B} _.
Arguments UnmarshalSources {B} _ _.
Arguments Stdout {B} _ _ _.
Arguments Get {B} _ _ _.
Arguments ReadAll {B} _ _ _.
Arguments Close {B} _ _ _.

Section Loading.
Context {B : Backend}.

(** The loop [for _, doc := range documents] of [loadExampleDocuments]: the
    first error of [AddDocument] is returned. *)
Fixpoint addDocuments (docs : list Document) : M B (option string) :=
  match docs with
  | [] => mret None
  | d :: rest =>
      e ← AddDocument d;
      match e with
      | Some err => mret (Some err)
      | None => addDocuments rest
      end
  end.

Definition loadExampleDocuments : M B (option string) :=
  addDocuments exampleDocuments.

Context (H : Host B).

(** A line written to the standard output. *)
Definition say (line : text) : M B unit :=
  call (fun w => (tt, Stdout H line w)).

(** The loop over the sources of [loadKnowledgeBase].  [deferred] holds the
    response bodies whose [Close] is deferred, the latest first; a failure
    to fetch, to read or to add a document is reported and the loop goes on
    with the next source.  The bodies come back with the outcome, also when
    [AddDocument] panics. *)
Fixpoint loadSources (sources : list cmd.RAGSource) (deferred : list (Body H))
    (st : RAG * World B) : outcome unit * list (Body H) * (RAG * World B) :=
  match sources with
  | [] => (Returns tt, deferred, st)
  | source :: rest =>
      let '(r, w) := st in
      let w := Stdout H (runes "Loading document from " ++ cmd.URL source
                        ++ runes "..." ++ newline) w in
      match Get H (cmd.URL source) w with
      | (Err err, w) =>
          let w := Stdout H (runes "Warning: Failed to fetch document from "
                            ++ cmd.URL source ++ runes ": " ++ runes err ++ newline) w in
          loadSources rest deferred (r, w)
      | (Value body, w) =>
          let deferred := body :: deferred in
          match ReadAll H body w with
          | (Err err, w) =>
              let w := Stdout H (runes "Warning: Failed to read document from "
                                ++ cmd.URL source ++ runes ": " ++ runes err ++ newline) w in
              loadSources rest deferred (r, w)
          | (Value content, w) =>
              match AddDocument {| Content := content;
                                   Source := cmd.Name source;
                                   Type_ := cmd.Type_ source |} (r, w) with
              | (Panics, st) => (Panics, deferred, st)
              | (Returns (Some err), (r, w)) =>
                  let w := Stdout H (runes "Warning: Failed to add document from "
                                    ++ cmd.URL source ++ runes ": " ++ runes err ++ newline) w in
                  loadSources rest deferred (r, w)
              | (Returns None, st) => loadSources rest deferred st
              end
          end
      end
  end.

(** [loadKnowledgeBase]: the documents of the configured sources, or the
    example documents when none is configured. *)
Definition loadKnowledgeBase : M B (option string) := fun st =>
  let '(r, w) := st in
  match UnmarshalSources H w with
  | (Err err, w) =>
      (Returns (Some (Errorf "failed to read document sources from config: " err)),
       (r, w))
  | (Value sources, w) =>
      match sources with
      | [] =>
          let w := Stdout H (runes "Warning: No document sources found in configuration. Using example documents."
                            ++ newline) w in
          loadExampleDocuments (r, w)
      | _ :: _ =>
          let '(out, deferred, (r, w)) := loadSources sources [] (r, w) in
          let w := fold_left (fun w body => Close H body w) deferred w in
          match out with
          | Returns _ => (Returns None, (r, w))
          | Panics => (Panics, (r, w))
          end
      end
  end.

End Loading.

(** A backend that embeds every text as the same vector and whose world is
    the standard output written so far, and a host with the given sources
    whose first URL, "http://down", cannot be fetched. *)
Definition recording : Backend := {|
  World := list text;
  CreateEmbeddings := fun _ _ w => (Value [[F32.lit 1 0; F32.zero]], w);
  CreateChatCompletion := fun _ _ w => (Value [runes "ok"], w);
  CreateMessages := fun _ _ w => (Value (runes "ok"), w)
|}.

Definition hostWith (sources : list cmd.RAGSource) : Host recording :=
  @Build_Host recording text
    (fun w : list text => (Value sources, w))
    (fun line (w : list text) => w ++ [line])
    (fun url (w : list text) =>
       (if bool_decide (url = runes "http://down") then Err "timeout"
        else Value (runes "Pods scale with replicas"), w))
    (fun body (w : list text) => (Value body, w))
    (fun _ (w : list text) => w).

Definition twoSources : list cmd.RAGSource :=
  [ {| cmd.URL := runes "http://down"; cmd.Type_ := runes "article";
       cmd.Name := runes "Down" |};
    {| cmd.URL := runes "http://up"; cmd.Type_ := runes "article";
       cmd.Name := runes "Up" |} ].

(** ** The search engine (package [ai]): enhancing search results *)

Module ai.

Record SearchResult := {
  Title : text;
  URL : text;
  Description : text;
  Content : text
}.

Record SearchEngine := {
  client : option Client;
  serperKey : text;
  maxTokens : Z
}.

(** [var model string = openai.GPT4oMini] *)
Definition model : text := runes "gpt-4o-mini".

Definition NewSearchEngine (openAIKey serperKey : text) : SearchEngine :=
  {| client := Some openAIKey; serperKey := serperKey; maxTokens := 4000 |}.

Section SearchEngineMethods.
Context {B : Backend}.

(** [analyzeContent]: one chat completion; the error of the service is
    returned as it is. *)
Definition analyzeContent (s : SearchEngine) (content query : text)
    (w : World B) : outcome (result text) * World B :=
  match client s with
  | None => (Panics, w)
  | Some c =>
      match CreateChatCompletion B c
              {| openai.Model := model;
                 openai.Messages :=
                   [ {| openai.Role := openai.ChatMessageRoleSystem;
                        openai.Content :=
                          runes "You are an infrastructure expert analyzing search results. "
                          ++ runes "Extract and summarize relevant information about infrastructure best practices "
                          ++ runes "and optimization recommendations. Focus on actionable insights." |};
                     {| openai.Role := openai.ChatMessageRoleUser;
                        openai.Content :=
                          runes "Query: " ++ query ++ newline ++ newline
                          ++ runes "Content to analyze: " ++ content ++ newline ++ newline
                          ++ runes "Please analyze this content and provide relevant insights related to the query." |} ];
                 openai.MaxTokens := maxTokens s |} w with
      | (Err err, w) => (Returns (Err err), w)
      | (Value choices, w) =>
          match choices with
          | [] => (Panics, w)              (* resp.Choices[0] out of range *)
          | content :: _ => (Returns (Value content), w)
          end
      end
  end.

(** The loop [for i := range results] of [enhanceResults], for the indices
    still to visit.  [results] is the slice of the caller, written in
    place by [results[i].Content = analysis]; it comes back beside the
    returned value, which on an error is the nil slice with the error. *)
Fixpoint enhanceLoop (s : SearchEngine) (query : text) (indices : list nat)
    (results : list SearchResult) (w : World B)
  : outcome (result (list SearchResult)) * list SearchResult * World B :=
  match indices with
  | [] => (Returns (Value results), results, w)
  | i :: rest =>
      match results !! i with
      | None => (Panics, results, w)       (* results[i] out of range *)
      | Some x =>
          match analyzeContent s (Content x) query w with
          | (Panics, w) => (Panics, results, w)
          | (Returns (Err err), w) => (Returns (Err err), results, w)
          | (Returns (Value analysis), w) =>
              enhanceLoop s query rest
                (<[i := {| Title := Title x; URL := URL x;
                           Description := Description x;
                           Content := analysis |}]> results) w
          end
      end
  end.

Definition enhanceResults (s : SearchEngine) (results : list SearchResult)
    (query : text) (w : World B)
  : outcome (result (list SearchResult)) * list SearchResult * World B :=
  enhanceLoop s query (seq 0 (length results)) results w.

End SearchEngineMethods.

End ai.

(** A backend whose chat completions answer "summary" twice and then fail;
    the world counts the calls. *)
Definition twoAnswers : Backend := {|
  World := nat;
  CreateEmbeddings := fun _ _ calls => (Err "no embeddings", calls);
  CreateChatCompletion := fun _ _ calls =>
    (if Nat.ltb calls 2 then Value [runes "summary"] else Err "rate limit",
     S calls);
  CreateMessages := fun _ _ calls => (Err "no messages", calls)
|}.

Definition hit (title : string) : ai.SearchResult :=
  {| ai.Title := runes title; ai.URL := runes "https://example.com";
     ai.Description := runes "snippet"; ai.Content := runes "snippet" |}.

(** [enhanced s query x y]: [y] is [x] with its content replaced by an
    analysis that [analyzeContent] returned for the content of [x]. *)
Definition enhanced {B : Backend} (s : ai.SearchEngine) (query : text)
    (x y : ai.SearchResult) : Prop :=
  ai.Title y = ai.Title x /\ ai.URL y = ai.URL x
  /\ ai.Description y = ai.Description x
  /\ exists w1 w2 : World B,
       ai.analyzeContent s (ai.Content x) query w1
       = (Returns (Value (ai.Content y)), w2).

Definition succeeded {A} (out : outcome (result A)) : bool :=
  match out with Returns (Value _) => true | _ => false end.

(** * Properties *)

(** ** Words: what [strings.Fields] produces and [strings.Join] keeps *)

Lemma nonSpace_app u v : nonSpace u -> nonSpace v -> nonSpace (u ++ v).
Proof. unfold nonSpace. intros. apply Forall_app; auto. Qed.

Lemma fieldsFrom_words s : forall start,
  (forall w, start = Some w -> isWord w) ->
  Forall isWord (fieldsFrom start s).
Proof.
  induction s as [|c s IH]; intros start Hstart; simpl.
  - destruct start as [w|]; auto.
  - destruct (isSpace c) eqn:Hc.
    + destruct start as [w|].
      * constructor; [auto|]. apply IH. discriminate.
      * apply IH. discriminate.
    + destruct start as [w|]; apply IH; intros w' [= <-].
      * destruct (Hstart w eq_refl) as [Hne Hns]. split.
        -- destruct w; discriminate.
        -- apply nonSpace_app; [assumption|]. repeat constructor. assumption.
      * split; [discriminate|]. repeat constructor. assumption.
Qed.

Lemma Fields_words t : Forall isWord (Fields t).
Proof. apply fieldsFrom_words. discriminate. Qed.

Lemma fieldsFrom_Some_nonSpace w : forall u s,
  nonSpace w -> fieldsFrom (Some u) (w ++ s) = fieldsFrom (Some (u ++ w)) s.
Proof.
  induction w as [|c w IH]; intros u s Hw; simpl.
  - by rewrite app_nil_r.
  - inversion Hw as [|? ? Hc Hw']; subst. rewrite Hc.
    rewrite IH by assumption. by rewrite <- app_assoc.
Qed.

Lemma fieldsFrom_None_word w s :
  isWord w -> fieldsFrom None (w ++ s) = fieldsFrom (Some w) s.
Proof.
  intros [Hne Hw]. destruct w as [|c w]; [done|]. simpl.
  inversion Hw as [|? ? Hc Hw']; subst. rewrite Hc.
  by rewrite fieldsFrom_Some_nonSpace.
Qed.

(** Splitting a space-joined list of words gives the words back. *)
Lemma Fields_Join ws : Forall isWord ws -> Fields (Join ws space) = ws.
Proof.
  unfold Fields. induction ws as [|w ws IH]; intros Hws; [done|].
  inversion Hws as [|? ? Hw Hws']; subst.
  destruct ws as [|w' ws].
  - simpl. rewrite <- (app_nil_r w) at 1.
    by rewrite fieldsFrom_None_word.
  - change (Join (w :: w' :: ws) space) with (w ++ space ++ Join (w' :: ws) space).
    rewrite fieldsFrom_None_word by assumption.
    simpl. f_equal. by apply IH.
Qed.

(** ** splitIntoChunks *)

(** [ceilDiv a b] is the least integer [k] with [a <= k * b]. *)
Lemma ceilDiv_least a b k :
  0 < b -> (ceilDiv a b <= k <-> a <= k * b).
Proof.
  intros Hb. unfold ceilDiv. split; intros H.
  - pose proof (Z.mul_div_le (a + b - 1) b Hb).
    pose proof (Z.mod_pos_bound (a + b - 1) b Hb).
    pose proof (Z.div_mod (a + b - 1) b ltac:(lia)). nia.
  - apply Z.lt_succ_r. apply Z.div_lt_upper_bound; [lia|]. nia.
Qed.

(** With a positive chunk size the loop cuts the words into full groups and
    keeps a shorter rest. *)
Lemma chunkLoop_groups (n : Z) ws : forall chunks cur,
  0 < n -> Z.of_nat (length cur) < n ->
  exists groups cur',
    fold_left (chunkStep n) ws (chunks, cur) = (chunks ++ map joinWords groups, cur')
    /\ concat groups ++ cur' = cur ++ ws
    /\ Forall (fun g => Z.of_nat (length g) = n) groups
    /\ Z.of_nat (length cur') < n.
Proof.
  induction ws as [|w ws IH]; intros chunks cur Hn Hcur.
  - exists [], cur. simpl. rewrite !app_nil_r. auto.
  - simpl. destruct (Z.geb_spec (Z.of_nat (length (cur ++ [w]))) n) as [Hge|Hlt].
    + destruct (IH (chunks ++ [Join (cur ++ [w]) space]) [] Hn ltac:(simpl; lia))
        as (groups & cur' & Hrun & Hcat & Hfull & Hrest).
      exists ((cur ++ [w]) :: groups), cur'. rewrite Hrun. simpl.
      repeat split.
      * by rewrite <- app_assoc.
      * rewrite <- !app_assoc. simpl. simpl in Hcat. by rewrite Hcat.
      * constructor; [|assumption]. rewrite length_app in *. simpl in *. lia.
      * assumption.
    + destruct (IH chunks (cur ++ [w]) Hn Hlt)
        as (groups & cur' & Hrun & Hcat & Hfull & Hrest).
      exists groups, cur'. rewrite Hrun. repeat split; try assumption.
      by rewrite Hcat, <- app_assoc.
Qed.

(** With a chunk size of one or less every word is flushed at once. *)
Lemma chunkLoop_single (n : Z) ws : forall chunks,
  n <= 1 ->
  fold_left (chunkStep n) ws (chunks, []) = (chunks ++ ws, []).
Proof.
  induction ws as [|w ws IH]; intros chunks Hn; simpl.
  - by rewrite app_nil_r.
  - destruct (Z.geb_spec (Z.of_nat 1) n) as [_|Hlt]; [|simpl in Hlt; lia].
    rewrite IH by assumption. by rewrite <- app_assoc.
Qed.

(** The chunks are the space-joined groups of a partition of the words into
    non-empty groups of at most [chunkSize] words, as many as
    [ceil (words / chunkSize)]. *)
Lemma splitIntoChunks_groups r t :
  0 < chunkSize r ->
  exists groups,
    splitIntoChunks r t = map joinWords groups
    /\ concat groups = Fields t
    /\ Forall (fun g => g <> [] /\ Z.of_nat (length g) <= chunkSize r) groups
    /\ Z.of_nat (length groups) = ceilDiv (Z.of_nat (wordCount t)) (chunkSize r).
Proof.
  intros Hn. unfold splitIntoChunks, wordCount.
  destruct (chunkLoop_groups (chunkSize r) (Fields t) [] [] Hn ltac:(simpl; lia))
    as (groups & cur' & Hrun & Hcat & Hfull & Hrest).
  rewrite Hrun. simpl in Hcat. simpl.
  assert (Hlen : Z.of_nat (length (Fields t))
                 = Z.of_nat (length groups) * chunkSize r + Z.of_nat (length cur')).
  { rewrite <- Hcat, length_app. clear -Hfull.
    induction Hfull as [|g gs Hg _ IH]; simpl; [lia|].
    rewrite length_app. simpl in IH. lia. }
  assert (Hfull' : Forall (fun g => g <> [] /\ Z.of_nat (length g) <= chunkSize r) groups).
  { eapply Forall_impl; [exact Hfull|]. intros g Hg. simpl in Hg. split; [|lia].
    destruct g; [simpl in Hg; lia|discriminate]. }
  destruct cur' as [|c cur'].
  - exists groups. simpl. rewrite app_nil_r in Hcat. repeat split; try assumption.
    unfold ceilDiv. rewrite Hlen. simpl.
    apply Z.div_unique with (r := chunkSize r - 1); lia.
  - exists (groups ++ [c :: cur']). simpl. repeat split.
    + by rewrite map_app.
    + rewrite concat_app. simpl. by rewrite app_nil_r.
    + apply Forall_app. split; [assumption|]. repeat constructor; [discriminate|lia].
    + unfold ceilDiv. rewrite Hlen, length_app. simpl length.
      apply Z.div_unique with (r := Z.of_nat (length (c :: cur')) - 1);
        simpl length in *; lia.
Qed.

Lemma Join_groups_words groups :
  Forall (Forall isWord) groups ->
  concat (map Fields (map joinWords groups)) = concat groups.
Proof.
  induction 1 as [|g gs Hg _ IH]; simpl; [done|].
  unfold joinWords at 1. by rewrite Fields_Join, IH.
Qed.

(** C5. For every text [t] and chunk size [N > 0], [splitIntoChunks]
    returns chunks whose words, taken in order and joined by single spaces,
    give the whitespace-normalized form of [t]; the words of the chunks are
    exactly the words of [t] in order (no word is split); the number of
    chunks is [ceil (wordCount t / N)]; no chunk has more than [N] words; and
    the empty text yields no chunk. *)
Theorem splitIntoChunks_spec (r : RAG) (t : text) :
  0 < chunkSize r ->
  Join (concat (map Fields (splitIntoChunks r t))) space = normalize t
  /\ concat (map Fields (splitIntoChunks r t)) = Fields t
  /\ Z.of_nat (length (splitIntoChunks r t))
     = ceilDiv (Z.of_nat (wordCount t)) (chunkSize r)
  /\ Forall (fun c => Z.of_nat (wordCount c) <= chunkSize r) (splitIntoChunks r t)
  /\ splitIntoChunks r [] = [].
Proof.
  intros Hn.
  destruct (splitIntoChunks_groups r t Hn) as (groups & Hsplit & Hcat & Hsize & Hcount).
  assert (Hwords : Forall (Forall isWord) groups).
  { pose proof (Fields_words t) as Hw. rewrite <- Hcat in Hw. clear -Hw.
    induction groups as [|g gs IH]; [constructor|].
    simpl in Hw. apply Forall_app in Hw as [Hg Hgs]. constructor; auto. }
  assert (Hsame : concat (map Fields (splitIntoChunks r t)) = Fields t).
  { by rewrite Hsplit, Join_groups_words. }
  split; [|split; [|split; [|split]]].
  - unfold normalize. by rewrite Hsame.
  - exact Hsame.
  - by rewrite Hsplit, length_map.
  - rewrite Hsplit. clear -Hsize Hwords.
    induction groups as [|g gs IH]; [constructor|].
    inversion Hsize as [|? ? [_ Hg] Hgs]; inversion Hwords; subst.
    constructor; [|by apply IH].
    unfold wordCount, joinWords. by rewrite Fields_Join.
  - reflexivity.
Qed.

(** The specification's example: chunk size 3 on a text of six words. *)
Lemma splitIntoChunks_spec_witness :
  0 < chunkSize (withChunkSize 3)
  /\ splitIntoChunks (withChunkSize 3)
       (runes "Kubernetes is great. Kubernetes scales well.")
     = [runes "Kubernetes is great."; runes "Kubernetes scales well."]
  /\ Z.of_nat (length (splitIntoChunks (withChunkSize 3)
       (runes "Kubernetes is great. Kubernetes scales well.")))
     = ceilDiv (Z.of_nat (wordCount
         (runes "Kubernetes is great. Kubernetes scales well.")))
         (chunkSize (withChunkSize 3)).
Proof.
  split; [reflexivity|]. split; [reflexivity|].
  apply (splitIntoChunks_spec (withChunkSize 3)
           (runes "Kubernetes is great. Kubernetes scales well.")).
  reflexivity.
Defined.

Lemma splitIntoChunks_single (r : RAG) (t : text) :
  chunkSize r <= 1 -> splitIntoChunks r t = Fields t.
Proof.
  intros Hn. unfold splitIntoChunks.
  by rewrite chunkLoop_single.
Qed.

(** C6, as the code has it.  With a chunk size of zero or less
    [splitIntoChunks] rejects nothing and does not keep the text whole: it
    returns one chunk per word, which is also its result with chunk
    size 1. *)
Theorem splitIntoChunks_nonpositive (r : RAG) (t : text) :
  chunkSize r <= 0 ->
  splitIntoChunks r t = Fields t
  /\ (forall r1, chunkSize r1 = 1 -> splitIntoChunks r t = splitIntoChunks r1 t).
Proof.
  intros Hn. split.
  - apply splitIntoChunks_single. lia.
  - intros r1 H1. rewrite !splitIntoChunks_single; [reflexivity|lia..].
Qed.

(** Chunk size 0 on a text of two words. *)
Lemma splitIntoChunks_nonpositive_witness :
  chunkSize (withChunkSize 0) <= 0
  /\ splitIntoChunks (withChunkSize 0) (runes "a b") = Fields (runes "a b")
  /\ (forall r1, chunkSize r1 = 1 ->
       splitIntoChunks (withChunkSize 0) (runes "a b")
       = splitIntoChunks r1 (runes "a b")).
Proof.
  split; [vm_compute; discriminate|].
  apply (splitIntoChunks_nonpositive (withChunkSize 0) (runes "a b")).
  vm_compute; discriminate.
Defined.

(** C6 as stated fails: with chunk size 0 the two-word text "a b" is neither
    rejected nor returned as a single chunk. *)
Lemma splitIntoChunks_zero_counterexample :
  runes "a b" <> []
  /\ chunkSize (withChunkSize 0) <= 0
  /\ splitIntoChunks (withChunkSize 0) (runes "a b") = [runes "a"; runes "b"]
  /\ ~ (exists c, splitIntoChunks (withChunkSize 0) (runes "a b") = [c]).
Proof.
  split; [discriminate|]. split; [vm_compute; discriminate|].
  split; [reflexivity|]. intros [c Hc]. vm_compute in Hc. discriminate.
Qed.

(** ** Running the methods *)

Lemma indexed_nil r d : indexed r d [] = r.
Proof. destruct r. unfold indexed. simpl. by rewrite app_nil_r. Qed.

Lemma indexed_cons r d chunk embedding entries :
  indexed
    {| openaiClient := openaiClient r;
       claudeClient := claudeClient r;
       documents := documents r ++ [chunkDoc d chunk];
       embeddings := <[chunk := embedding]> (embeddings r);
       chunkSize := chunkSize r;
       maxTokens := maxTokens r;
       useOpenAI := useOpenAI r |} d entries
  = indexed r d ((chunk, embedding) :: entries).
Proof. unfold indexed. simpl. by rewrite <- app_assoc. Qed.

Section Runs.
Context {B : Backend}.

Ltac run :=
  unfold mbind, M_bind, mret, M_ret, getRAG, setRAG, panic, call; simpl.

(** [getEmbedding] reads the receiver and does not write it. *)
Lemma getEmbedding_frame t (r : RAG) (w : World B) :
  exists out w', getEmbedding t (r, w) = (out, (r, w')).
Proof.
  unfold getEmbedding. run.
  destruct (useOpenAI r); [|eauto].
  destruct (openaiClient r) as [client|]; [|eauto].
  destruct (CreateEmbeddings _ _ _ _) as [[data|err] w']; [|eauto].
  destruct data; eauto.
Qed.

Lemma generateAnswer_frame ctx question (r : RAG) (w : World B) :
  exists out w', generateAnswer ctx question (r, w) = (out, (r, w')).
Proof.
  unfold generateAnswer. run.
  destruct (useOpenAI r).
  - destruct (openaiClient r) as [client|]; [|eauto].
    destruct (CreateChatCompletion _ _ _ _) as [[choices|err] w']; [|eauto].
    destruct choices; eauto.
  - destruct (claudeClient r) as [client|]; [|eauto].
    destruct (CreateMessages _ _ _ _) as [[content|err] w']; eauto.
Qed.

(** What a run of the loop of [AddDocument] leaves behind: the chunks up to
    the first one whose embedding is not obtained are indexed, in order;
    the loop ends without error only when all are. *)
Lemma addChunks_run d chunks : forall (r : RAG) (w : World B) out r' w',
  addChunks d chunks (r, w) = (out, (r', w')) ->
  exists entries rest,
    chunks = entries.*1 ++ rest
    /\ r' = indexed r d entries
    /\ match out with
       | Returns None => rest = []
       | Returns (Some e) =>
           exists failed rest' err w0,
             rest = failed :: rest'
             /\ getEmbedding failed (r', w0) = (Returns (Err err), (r', w'))
             /\ e = Errorf "failed to get embedding: " err
       | Panics => rest <> []
       end.
Proof.
  induction chunks as [|chunk chunks IH]; intros r w out r' w' Hrun.
  - injection Hrun as <- <- <-. exists [], []. by rewrite indexed_nil.
  - simpl in Hrun. unfold mbind at 1, M_bind at 1 in Hrun.
    destruct (getEmbedding_frame chunk r w) as (o & w1 & He).
    rewrite He in Hrun. destruct o as [[embedding|err]|].
    + unfold mbind, M_bind, getRAG, setRAG in Hrun. simpl in Hrun.
      apply IH in Hrun as (entries & rest & Hchunks & Hr' & Hout).
      exists ((chunk, embedding) :: entries), rest.
      split; [simpl; by rewrite Hchunks|].
      split; [by rewrite Hr', <- indexed_cons|exact Hout].
    + injection Hrun as <- <- <-.
      exists [], (chunk :: chunks). rewrite indexed_nil.
      split; [done|]. split; [done|]. by exists chunk, chunks, err, w.
    + injection Hrun as <- <- <-.
      exists [], (chunk :: chunks). by rewrite indexed_nil.
Qed.

End Runs.

(** ** AddDocument *)

Section AddDocument.
Context {B : Backend}.

(** [getEmbedding] depends on the receiver through [useOpenAI] and
    [openaiClient] only. *)
Lemma getEmbedding_agree t (r0 r : RAG) (w w' : World B) out :
  useOpenAI r = useOpenAI r0 -> openaiClient r = openaiClient r0 ->
  getEmbedding t (r0, w) = (out, (r0, w')) ->
  getEmbedding t (r, w) = (out, (r, w')).
Proof.
  unfold getEmbedding, mbind, M_bind, mret, M_ret, getRAG, panic, call. simpl.
  intros -> ->. destruct (useOpenAI r0).
  - destruct (openaiClient r0) as [client|]; [|by intros [= <- <-]].
    destruct (CreateEmbeddings _ _ _ _) as [[data|err] w1]; [|by intros [= <- <-]].
    destruct data; by intros [= <- <-].
  - by intros [= <- <-].
Qed.

Lemma addChunks_fail d failed rest err entries :
  forall (r0 r : RAG) (w w1 w2 : World B),
  useOpenAI r = useOpenAI r0 -> openaiClient r = openaiClient r0 ->
  Embedded r0 entries w w1 ->
  getEmbedding failed (r0, w1) = (Returns (Err err), (r0, w2)) ->
  addChunks d (entries.*1 ++ failed :: rest) (r, w)
  = (Returns (Some (Errorf "failed to get embedding: " err)),
     (indexed r d entries, w2)).
Proof.
  induction entries as [|[chunk embedding] entries IH];
    intros r0 r w w1 w2 Huse Hclient Hemb Hfail.
  - inversion Hemb; subst. simpl. unfold mbind at 1, M_bind at 1.
    rewrite (getEmbedding_agree _ _ _ _ _ _ Huse Hclient Hfail).
    by rewrite indexed_nil.
  - inversion Hemb as [|? ? ? ? wm ? Hfirst Hrest]; subst. simpl.
    unfold mbind at 1, M_bind at 1.
    rewrite (getEmbedding_agree _ _ _ _ _ _ Huse Hclient Hfirst).
    unfold mbind at 1 2, M_bind at 1 2, getRAG, setRAG. simpl.
    erewrite IH; [|exact Huse|exact Hclient|exact Hrest|exact Hfail].
    by rewrite <- indexed_cons.
Qed.

Lemma indexed_same r d entries : indexed r d entries = r -> entries = [].
Proof.
  intros H. apply (f_equal (fun x => length (documents x))) in H.
  simpl in H. rewrite length_app, length_map, length_fmap in H.
  destruct entries; [done|simpl in H; lia].
Qed.

(** C2, as the code has it.  If the embedding calls for the first chunks of
    a document succeed and the call for the next chunk fails, [AddDocument]
    returns the error and the index holds the chunks before the failing one:
    they have been appended to [documents], in order, and their embeddings
    stored; the failing chunk and the chunks after it are not indexed.  The
    index is as before the call exactly when the failing chunk is the
    first. *)
Theorem AddDocument_error_keeps_prefix (d : Document) (r : RAG)
    (w w1 w2 : World B) entries failed rest err :
  splitIntoChunks r (Content d) = entries.*1 ++ failed :: rest ->
  Embedded r entries w w1 ->
  getEmbedding failed (r, w1) = (Returns (Err err), (r, w2)) ->
  exists r',
    AddDocument d (r, w)
    = (Returns (Some (Errorf "failed to get embedding: " err)), (r', w2))
    /\ documents r' = documents r ++ map (chunkDoc d) (entries.*1)
    /\ embeddings r' = store (embeddings r) entries
    /\ chunkSize r' = chunkSize r /\ maxTokens r' = maxTokens r
    /\ (r' = r <-> entries = []).
Proof.
  intros Hsplit Hemb Hfail. exists (indexed r d entries).
  split.
  - unfold AddDocument, mbind, M_bind, getRAG. simpl. rewrite Hsplit.
    by apply addChunks_fail with (r0 := r) (w1 := w1).
  - repeat split; try reflexivity.
    + apply indexed_same.
    + intros ->. apply indexed_nil.
Qed.

End AddDocument.

(** A document of five chunks with a backend whose third call fails: the
    first two chunks stay indexed. *)
Lemma AddDocument_error_keeps_prefix_witness :
  exists r',
    @AddDocument flaky fiveWords (withChunkSize 1, 0%nat)
    = (Returns (Some (Errorf "failed to get embedding: " "quota exceeded")),
       (r', 3%nat))
    /\ documents r'
       = documents (withChunkSize 1)
         ++ map (chunkDoc fiveWords) [runes "a"; runes "b"]
    /\ embeddings r'
       = store (embeddings (withChunkSize 1))
           [(runes "a", [F32.lit 1 0]); (runes "b", [F32.lit 1 0])]
    /\ chunkSize r' = chunkSize (withChunkSize 1)
    /\ maxTokens r' = maxTokens (withChunkSize 1)
    /\ (r' = withChunkSize 1
        <-> [(runes "a", [F32.lit 1 0]); (runes "b", [F32.lit 1 0])] = []).
Proof.
  apply (@AddDocument_error_keeps_prefix flaky fiveWords (withChunkSize 1)
           0%nat 2%nat 3%nat
           [(runes "a", [F32.lit 1 0]); (runes "b", [F32.lit 1 0])]
           (runes "c") [runes "d"; runes "e"] "quota exceeded").
  - reflexivity.
  - apply Embedded_cons with (w1 := 1%nat); [reflexivity|].
    apply Embedded_cons with (w1 := 2%nat); [reflexivity|].
    apply Embedded_nil.
  - reflexivity.
Defined.

(** C2 as stated fails: with a backend that fails on the third of five
    chunks, [AddDocument] returns an error and the index, empty before the
    call, holds the first two chunks and their embeddings. *)
Lemma AddDocument_not_atomic_counterexample :
  length (splitIntoChunks (withChunkSize 1) (Content fiveWords)) = 5%nat
  /\ documents (withChunkSize 1) = []
  /\ embeddings (withChunkSize 1) = ∅
  /\ exists e r' w',
       @AddDocument flaky fiveWords (withChunkSize 1, 0%nat)
       = (Returns (Some e), (r', w'))
       /\ documents r' = [chunkDoc fiveWords (runes "a");
                          chunkDoc fiveWords (runes "b")]
       /\ embeddings r' !! runes "a" = Some [F32.lit 1 0]
       /\ embeddings r' !! runes "b" = Some [F32.lit 1 0]
       /\ documents r' <> documents (withChunkSize 1)
       /\ embeddings r' <> embeddings (withChunkSize 1).
Proof.
  split; [reflexivity|]. split; [reflexivity|]. split; [reflexivity|].
  eexists _, _, _. split; [vm_compute; reflexivity|].
  split; [reflexivity|]. split; [reflexivity|]. split; [reflexivity|].
  split; [discriminate|].
  intros H. apply (f_equal (fun m => m !! runes "a")) in H.
  vm_compute in H. discriminate.
Qed.

(** ** The embeddings map is keyed by chunk text *)

Lemma filter_key_absent {A} (c : text) (l : list (text * A)) :
  c ∉ l.*1 -> filter (fun kv => kv.1 = c) l = [].
Proof.
  induction l as [|[k v] l IH]; intros Hc; [done|].
  simpl in Hc. apply not_elem_of_cons in Hc as [Hne Hc].
  rewrite filter_cons_False by (simpl; congruence). by apply IH.
Qed.

Lemma filter_key_once {A} (c : text) (v : A) (l : list (text * A)) :
  NoDup (l.*1) -> (c, v) ∈ l -> length (filter (fun kv => kv.1 = c) l) = 1%nat.
Proof.
  induction l as [|[k v'] l IH]; intros Hnd Hin.
  - by apply elem_of_nil in Hin.
  - simpl in Hnd. apply NoDup_cons in Hnd as [Hk Hnd].
    destruct (decide (k = c)) as [->|Hne].
    + rewrite filter_cons_True by done. simpl.
      by rewrite filter_key_absent.
    + rewrite filter_cons_False by (simpl; congruence).
      apply IH; [assumption|].
      apply elem_of_cons in Hin as [[= ? ?]|Hin]; [congruence|assumption].
Qed.

Lemma store_lookup entries : forall m c,
  c ∈ entries.*1 -> is_Some (store m entries !! c).
Proof.
  assert (Hkeep : forall es (m : gmap text (list float32)) c,
            is_Some (m !! c) -> is_Some (store m es !! c)).
  { unfold store. induction es as [|[k v] es IH]; intros m c Hc; [done|]. simpl.
    apply IH. destruct (decide (k = c)) as [->|Hne].
    - rewrite lookup_insert_eq. eauto.
    - by rewrite lookup_insert_ne. }
  induction entries as [|[k v] entries IH]; intros m c Hc.
  - by apply elem_of_nil in Hc.
  - simpl in Hc. apply elem_of_cons in Hc as [->|Hc].
    + apply (Hkeep entries). rewrite lookup_insert_eq. eauto.
    + by apply (IH (<[k := v]> m)).
Qed.

Lemma embeddingEntries_one r c :
  is_Some (embeddings r !! c) -> embeddingEntries r c = 1%nat.
Proof.
  intros [v Hv]. unfold embeddingEntries.
  apply filter_key_once with (v := v).
  - apply NoDup_fst_map_to_list.
  - by apply elem_of_map_to_list.
Qed.

Lemma chunkEntries_chunkDoc d c chunks :
  length (filter (fun x => Content x = c) (map (chunkDoc d) chunks))
  = occurrences c chunks.
Proof.
  unfold occurrences. induction chunks as [|x chunks IH]; [done|]. simpl.
  destruct (decide (x = c)) as [->|Hne].
  - rewrite !filter_cons_True by done. simpl. by rewrite IH.
  - by rewrite !filter_cons_False by done.
Qed.

Lemma occurrences_elem c chunks : c ∈ chunks -> (1 <= occurrences c chunks)%nat.
Proof.
  unfold occurrences. induction chunks as [|x chunks IH]; intros Hc.
  - by apply elem_of_nil in Hc.
  - destruct (decide (x = c)) as [->|Hne].
    + rewrite filter_cons_True by done. simpl. lia.
    + rewrite filter_cons_False by done. apply IH.
      apply elem_of_cons in Hc as [?|?]; [congruence|assumption].
Qed.

Section Ingestion.
Context {B : Backend}.

(** A successful [AddDocument] appends every chunk to [documents], in
    order, and assigns every chunk its embedding in the map. *)
Lemma AddDocument_success d (r : RAG) (w : World B) r' w' :
  AddDocument d (r, w) = (Returns None, (r', w')) ->
  exists entries,
    splitIntoChunks r (Content d) = entries.*1 /\ r' = indexed r d entries.
Proof.
  unfold AddDocument, mbind, M_bind, getRAG. simpl. intros Hrun.
  apply addChunks_run in Hrun as (entries & rest & Hchunks & Hr' & ->).
  exists entries. by rewrite app_nil_r in Hchunks.
Qed.

(** C8. When two ingestions both contain a chunk with text [c] (the same
    document added twice, for one), the embeddings map holds exactly one
    entry under [c], while the chunk list holds an entry for every
    occurrence in either ingestion: the chunks of both ingestions are
    appended to it, none removed. *)
Theorem duplicate_chunks_share_embedding (d1 d2 : Document) (r r1 r2 : RAG)
    (w w1 w2 : World B) (c : text) :
  AddDocument d1 (r, w) = (Returns None, (r1, w1)) ->
  AddDocument d2 (r1, w1) = (Returns None, (r2, w2)) ->
  c ∈ splitIntoChunks r (Content d1) ->
  c ∈ splitIntoChunks r (Content d2) ->
  embeddingEntries r2 c = 1%nat
  /\ documents r2
     = documents r
       ++ map (chunkDoc d1) (splitIntoChunks r (Content d1))
       ++ map (chunkDoc d2) (splitIntoChunks r (Content d2))
  /\ chunkEntries r2 c
     = (chunkEntries r c
        + occurrences c (splitIntoChunks r (Content d1))
        + occurrences c (splitIntoChunks r (Content d2)))%nat
  /\ (chunkEntries r c + 2 <= chunkEntries r2 c)%nat.
Proof.
  intros H1 H2 Hc1 Hc2.
  apply AddDocument_success in H1 as (es1 & Hs1 & ->).
  apply AddDocument_success in H2 as (es2 & Hs2 & ->).
  assert (Hs2' : splitIntoChunks r (Content d2) = es2.*1) by exact Hs2.
  assert (Hdocs : documents (indexed (indexed r d1 es1) d2 es2)
                  = documents r
                    ++ map (chunkDoc d1) (splitIntoChunks r (Content d1))
                    ++ map (chunkDoc d2) (splitIntoChunks r (Content d2))).
  { simpl. by rewrite Hs1, Hs2', <- app_assoc. }
  assert (Hcount : chunkEntries (indexed (indexed r d1 es1) d2 es2) c
     = (chunkEntries r c
        + occurrences c (splitIntoChunks r (Content d1))
        + occurrences c (splitIntoChunks r (Content d2)))%nat).
  { unfold chunkEntries. rewrite Hdocs.
    rewrite !filter_app, !length_app, !chunkEntries_chunkDoc. lia. }
  split; [|split; [exact Hdocs|split; [exact Hcount|]]].
  - apply embeddingEntries_one. simpl. apply store_lookup.
    by rewrite <- Hs2'.
  - rewrite Hcount.
    pose proof (occurrences_elem _ _ Hc1). pose proof (occurrences_elem _ _ Hc2).
    lia.
Qed.

End Ingestion.

(** The same document added twice to a new orchestrator: one embedding
    entry under "a", two chunk entries with content "a". *)
Lemma duplicate_chunks_share_embedding_witness :
  embeddingEntries
    (snd (@AddDocument constant fiveWords
            (snd (@AddDocument constant fiveWords (withChunkSize 1, tt))))).1
    (runes "a") = 1%nat
  /\ chunkEntries
       (snd (@AddDocument constant fiveWords
               (snd (@AddDocument constant fiveWords (withChunkSize 1, tt))))).1
       (runes "a") = 2%nat.
Proof.
  pose (s1 := snd (@AddDocument constant fiveWords (withChunkSize 1, tt))).
  pose (s2 := snd (@AddDocument constant fiveWords s1)).
  assert (Hin : runes "a" ∈ splitIntoChunks (withChunkSize 1) (Content fiveWords)).
  { change (runes "a" ∈ [runes "a"; runes "b"; runes "c"; runes "d"; runes "e"]).
    constructor. }
  destruct (@duplicate_chunks_share_embedding constant fiveWords fiveWords
              (withChunkSize 1) s1.1 s2.1 tt s1.2 s2.2 (runes "a"))
    as (Hone & _ & Hcount & _).
  - vm_compute. reflexivity.
  - vm_compute. reflexivity.
  - exact Hin.
  - exact Hin.
  - split; [exact Hone|]. exact Hcount.
Defined.

(** ** getEmbedding in Claude mode *)

(** C9. With the orchestrator in Claude mode ([useOpenAI] false, as
    [NewRAGWithClaude] makes it), [getEmbedding] returns an error for every
    text: no vector is returned, no service is called and nothing changes. *)
Theorem getEmbedding_claude_mode {B : Backend} (r : RAG) (w : World B) (t : text) :
  useOpenAI r = false ->
  getEmbedding t (r, w)
  = (Returns (Err "Claude mode requires an OpenAI API key for embeddings - this is not implemented yet"),
     (r, w)).
Proof.
  intros Hmode. unfold getEmbedding, mbind, M_bind, getRAG. simpl.
  by rewrite Hmode.
Qed.

(** The orchestrator made by [NewRAGWithClaude]. *)
Lemma getEmbedding_claude_mode_witness :
  useOpenAI (NewRAGWithClaude (runes "key")) = false
  /\ @getEmbedding constant (runes "how does Kubernetes scale")
       (NewRAGWithClaude (runes "key"), tt)
     = (Returns (Err "Claude mode requires an OpenAI API key for embeddings - this is not implemented yet"),
        (NewRAGWithClaude (runes "key"), tt)).
Proof.
  split; [reflexivity|].
  apply (@getEmbedding_claude_mode constant (NewRAGWithClaude (runes "key")) tt
           (runes "how does Kubernetes scale")).
  reflexivity.
Defined.

(** ** Query *)

(** C10. [Query] leaves the receiver as it was, whether it returns an
    answer, returns an error or panics: [documents], [embeddings],
    [chunkSize] and [maxTokens] are those from before the call. *)
Theorem Query_frame {B : Backend} (question : text) (r : RAG) (w : World B) :
  (snd (Query question (r, w))).1 = r.
Proof.
  unfold Query. unfold mbind at 1, M_bind at 1.
  destruct (getEmbedding_frame question r w) as (out & w1 & ->).
  destruct out as [[questionEmbedding|err]|]; [|reflexivity|reflexivity].
  unfold mbind, M_bind, getRAG. simpl.
  destruct (findRelevantDocuments r questionEmbedding) as [relevantDocs|];
    [|reflexivity].
  by destruct (generateAnswer_frame (buildContext r relevantDocs) question r w1)
    as (out & w2 & ->).
Qed.

(** ** The setters *)

(** C7, as the code has it.  [SetChunkSize] and [SetMaxTokens] store the
    value they are given, whatever it is, and change nothing else; values of
    zero or less are kept out by the callers, which invoke a setter only
    with a positive value. *)
Theorem setters_store_any_value {B : Backend} (r : RAG) (w : World B) (n : Z) :
  (exists r', SetChunkSize n (r, w) = (Returns tt, (r', w))
     /\ chunkSize r' = n /\ maxTokens r' = maxTokens r
     /\ documents r' = documents r /\ embeddings r' = embeddings r)
  /\ (exists r', SetMaxTokens n (r, w) = (Returns tt, (r', w))
     /\ maxTokens r' = n /\ chunkSize r' = chunkSize r
     /\ documents r' = documents r /\ embeddings r' = embeddings r)
  /\ (forall m,
        chunkSize (snd (applyConfig n m (r, w))).1
        = (if n >? 0 then n else chunkSize r)
        /\ maxTokens (snd (applyConfig n m (r, w))).1
           = (if m >? 0 then m else maxTokens r)).
Proof.
  split; [|split].
  - eexists. split; [reflexivity|]. by simpl.
  - eexists. split; [reflexivity|]. by simpl.
  - intros m. unfold applyConfig.
    destruct (n >? 0), (m >? 0); by simpl.
Qed.

(** C7 as stated fails: [SetChunkSize 0] and [SetMaxTokens (-1)] are
    accepted and the stored configuration becomes non-positive. *)
Lemma setters_accept_nonpositive_counterexample :
  chunkSize (NewRAG (runes "key")) = 1000
  /\ chunkSize (snd (@SetChunkSize offline 0 (NewRAG (runes "key"), tt))).1 = 0
  /\ maxTokens (NewRAG (runes "key")) = 4000
  /\ maxTokens (snd (@SetMaxTokens offline (-1) (NewRAG (runes "key"), tt))).1 = -1.
Proof. repeat split. Qed.

(** ** cosineSimilarity *)

Lemma F32_mul_comm x y : F32.mul x y = F32.mul y x.
Proof.
  unfold F32.mul.
  destruct x as [sx|sx| |sx mx ex], y as [sy|sy| |sy my ey]; simpl;
    try reflexivity; try (by rewrite xorb_comm).
  by rewrite xorb_comm, Pos.mul_comm, Z.add_comm.
Qed.

Lemma cosineLoop_swap a : forall b dot na nb,
  length a = length b ->
  cosineLoop b a (dot, nb, na)
  = match cosineLoop a b (dot, na, nb) with
    | Some (dot', na', nb') => Some (dot', nb', na')
    | None => None
    end.
Proof.
  induction a as [|ai a IH]; intros [|bi b] dot na nb Hlen;
    try discriminate; [reflexivity|].
  simpl. rewrite (F32_mul_comm bi ai). apply IH. by injection Hlen.
Qed.

(** On vectors of one length [cosineSimilarity] is symmetric. *)
Lemma cosineSimilarity_symmetric a b :
  length a = length b -> cosineSimilarity a b = cosineSimilarity b a.
Proof.
  intros Hlen. unfold cosineSimilarity.
  rewrite (cosineLoop_swap a b _ _ _ Hlen).
  destruct (cosineLoop a b _) as [[[dot na] nb]|]; [|reflexivity].
  by rewrite (F32_mul_comm (sqrt na) (sqrt nb)).
Qed.

(** On vectors of different lengths one order panics and the other does
    not. *)
Lemma cosineSimilarity_lengths :
  cosineSimilarity [F32.lit 1 0] [F32.lit 1 0; F32.zero] = Some (F32.lit 1 0)
  /\ cosineSimilarity [F32.lit 1 0; F32.zero] [F32.lit 1 0] = None.
Proof. split; reflexivity. Qed.

Lemma zeroOrNan_add x y :
  zeroOrNan x = true -> zeroOrNan y = true -> zeroOrNan (F32.add x y) = true.
Proof.
  destruct x as [sx|sx| |sx mx ex], y as [sy|sy| |sy my ey]; try discriminate;
    try reflexivity.
  by destruct sx, sy.
Qed.

Lemma zeroOrNan_mul_l x y :
  F32.is_zero x = true -> zeroOrNan (F32.mul x y) = true.
Proof.
  destruct x as [sx|sx| |sx mx ex]; try discriminate.
  by destruct y as [sy|sy| |sy my ey].
Qed.

Lemma is_zero_square x :
  F32.is_zero x = true -> F32.is_zero (F32.mul x x) = true.
Proof. by destruct x as [sx|sx| |sx mx ex]. Qed.

Lemma is_zero_add x y :
  F32.is_zero x = true -> F32.is_zero y = true ->
  F32.is_zero (F32.add x y) = true.
Proof.
  destruct x as [sx|sx| |sx mx ex], y as [sy|sy| |sy my ey]; try discriminate.
  by destruct sx, sy.
Qed.

(** The loop on an all-zero [a]: the dot product stays zero or NaN and the
    norm of [a] stays zero. *)
Lemma cosineLoop_allZero_l a : forall b dot na nb,
  allZero a -> (length a <= length b)%nat ->
  zeroOrNan dot = true -> F32.is_zero na = true ->
  exists dot' na' nb',
    cosineLoop a b (dot, na, nb) = Some (dot', na', nb')
    /\ zeroOrNan dot' = true /\ F32.is_zero na' = true.
Proof.
  induction a as [|ai a IH]; intros b dot na nb Ha Hlen Hdot Hna.
  - exists dot, na, nb. auto.
  - destruct b as [|bi b]; [simpl in Hlen; lia|].
    inversion Ha as [|? ? Hai Ha']; subst. simpl.
    apply IH; [assumption|simpl in Hlen; lia| |].
    + apply zeroOrNan_add; [assumption|]. by apply zeroOrNan_mul_l.
    + apply is_zero_add; [assumption|]. by apply is_zero_square.
Qed.

(** The same on an all-zero [b], of which the loop reads the first
    [length a] entries. *)
Lemma cosineLoop_allZero_r a : forall b dot na nb,
  allZero b -> (length a <= length b)%nat ->
  zeroOrNan dot = true -> F32.is_zero nb = true ->
  exists dot' na' nb',
    cosineLoop a b (dot, na, nb) = Some (dot', na', nb')
    /\ zeroOrNan dot' = true /\ F32.is_zero nb' = true.
Proof.
  induction a as [|ai a IH]; intros b dot na nb Hb Hlen Hdot Hnb.
  - exists dot, na, nb. auto.
  - destruct b as [|bi b]; [simpl in Hlen; lia|].
    inversion Hb as [|? ? Hbi Hb']; subst. simpl.
    apply IH; [assumption|simpl in Hlen; lia| |].
    + apply zeroOrNan_add; [assumption|].
      rewrite F32_mul_comm. by apply zeroOrNan_mul_l.
    + apply is_zero_add; [assumption|]. by apply is_zero_square.
Qed.

Lemma sqrt_zero x : F32.is_zero x = true -> sqrt x = x.
Proof. by destruct x. Qed.

Lemma div_zero_norm dot n m :
  zeroOrNan dot = true -> F32.is_zero n = true ->
  F32.div dot (F32.mul n m) = F32.nan.
Proof.
  destruct n as [sn|sn| |sn mn en]; try discriminate.
  by destruct dot as [sd|sd| |sd md ed], m as [sm|sm| |sm mm em].
Qed.

(** C3, as the code has it.  [cosineSimilarity] has no case for a zero
    norm and performs the division all the same.  When either accumulated
    norm is zero the result is NaN or an infinity; when [a] or [b] is
    all-zero (and [b] is at least as long as [a], so that the loop does not
    panic) the result is NaN, the value of 0/0.  It is not 0. *)
Theorem cosineSimilarity_zero_norm (a b : list float32) :
  (forall dot na nb,
     cosineLoop a b (F32.zero, F32.zero, F32.zero) = Some (dot, na, nb) ->
     F32.is_zero na || F32.is_zero nb = true ->
     exists x, cosineSimilarity a b = Some x
               /\ F32.is_nan x || F32.is_inf x = true
               /\ F32.is_zero x = false)
  /\ ((length a <= length b)%nat -> allZero a \/ allZero b ->
      cosineSimilarity a b = Some F32.nan).
Proof.
  split.
  - intros dot na nb Hloop Hzero. unfold cosineSimilarity. rewrite Hloop.
    eexists. split; [reflexivity|].
    apply orb_true_iff in Hzero as [Hz|Hz].
    + destruct na as [sa| | |]; try discriminate.
      change (sqrt (S754_zero sa)) with (S754_zero sa).
      destruct (sqrt nb) as [s|s| |s m e], dot as [sd|sd| |sd md ed];
        split; reflexivity.
    + destruct nb as [sb| | |]; try discriminate.
      change (sqrt (S754_zero sb)) with (S754_zero sb).
      destruct (sqrt na) as [s|s| |s m e], dot as [sd|sd| |sd md ed];
        split; reflexivity.
  - intros Hlen [Ha|Hb]; unfold cosineSimilarity.
    + destruct (cosineLoop_allZero_l a b F32.zero F32.zero F32.zero Ha Hlen)
        as (dot & na & nb & -> & Hdot & Hna); [reflexivity..|].
      rewrite (sqrt_zero na Hna). by rewrite div_zero_norm.
    + destruct (cosineLoop_allZero_r a b F32.zero F32.zero F32.zero Hb Hlen)
        as (dot & na & nb & -> & Hdot & Hnb); [reflexivity..|].
      rewrite (sqrt_zero nb Hnb), F32_mul_comm. by rewrite div_zero_norm.
Qed.

(** An all-zero [a] against [b = [1; 2]]. *)
Lemma cosineSimilarity_zero_norm_witness :
  cosineLoop [F32.zero; F32.zero] [F32.lit 1 0; F32.lit 2 0]
    (F32.zero, F32.zero, F32.zero)
  = Some (F32.zero, F32.zero, F32.lit 5 0)
  /\ (exists x,
        cosineSimilarity [F32.zero; F32.zero] [F32.lit 1 0; F32.lit 2 0] = Some x
        /\ F32.is_nan x || F32.is_inf x = true
        /\ F32.is_zero x = false)
  /\ cosineSimilarity [F32.zero; F32.zero] [F32.lit 1 0; F32.lit 2 0]
     = Some F32.nan.
Proof.
  destruct (cosineSimilarity_zero_norm
              [F32.zero; F32.zero] [F32.lit 1 0; F32.lit 2 0]) as [Hnorm Hzero].
  split; [reflexivity|]. split.
  - apply (Hnorm F32.zero F32.zero (F32.lit 5 0)); reflexivity.
  - apply Hzero; [simpl; lia|]. left. repeat constructor.
Defined.

(** C3 as stated fails: with [a = [0]] and [b = [1]], in either order,
    [cosineSimilarity] divides zero by zero and returns NaN, which is not
    0. *)
Lemma cosineSimilarity_zero_vector_counterexample :
  cosineSimilarity [F32.zero] [F32.lit 1 0] = Some F32.nan
  /\ cosineSimilarity [F32.lit 1 0] [F32.zero] = Some F32.nan
  /\ F32.is_zero F32.nan = false
  /\ F32.eqb F32.nan F32.zero = false.
Proof. repeat split. Qed.

(** *** [sqrt] is the identity

    A float32 converts to float64 without rounding, and the float64 so
    obtained converts back to the float32 it came from. *)

Lemma iter_pos_iter {A} (f : A -> A) p : forall x,
  SpecFloat.iter_pos f p x = Pos.iter f x p.
Proof.
  induction p as [p IH|p IH|]; intros x; simpl.
  - rewrite !IH. rewrite <- Pos.iter_swap. f_equal. by rewrite <- Pos.iter_swap.
  - by rewrite !IH.
  - reflexivity.
Qed.

Lemma digits2_pos_shift m k :
  digits2_pos (Pos.iter xO m k) = (digits2_pos m + k)%positive.
Proof.
  induction k as [|k IH] using Pos.peano_ind.
  - simpl. lia.
  - rewrite Pos.iter_succ. simpl. rewrite IH. lia.
Qed.

Lemma shr_shift m k :
  SpecFloat.iter_pos shr_1 k
    {| shr_m := Zpos (Pos.iter xO m k); shr_r := false; shr_s := false |}
  = {| shr_m := Zpos m; shr_r := false; shr_s := false |}.
Proof.
  rewrite iter_pos_iter.
  induction k as [|k IH] using Pos.peano_ind.
  - reflexivity.
  - rewrite Pos.iter_succ_r, Pos.iter_succ. simpl. exact IH.
Qed.

Lemma shr_fexp_exact p emx m e :
  fexp p emx (Zpos (digits2_pos m) + e) = e ->
  shr_fexp p emx (Zpos m) e loc_Exact
  = ({| shr_m := Zpos m; shr_r := false; shr_s := false |}, e).
Proof.
  intros H. unfold shr_fexp, Zdigits2. by rewrite H, Z.sub_diag.
Qed.

Lemma round_aux_exact p emx s m e :
  fexp p emx (Zpos (digits2_pos m) + e) = e -> e <= emx - p ->
  binary_round_aux p emx s (Zpos m) e loc_Exact = S754_finite s m e.
Proof.
  intros H He. unfold binary_round_aux. rewrite shr_fexp_exact by assumption.
  cbn [shr_m loc_of_shr_record round_nearest_even].
  rewrite shr_fexp_exact by assumption. cbn [shr_m].
  destruct (Z.leb_spec e (emx - p)); [reflexivity|lia].
Qed.

Lemma round_aux_shift p emx s m k e :
  fexp p emx (Zpos (digits2_pos m) + e) = e -> e <= emx - p ->
  binary_round_aux p emx s (Zpos (Pos.iter xO m k)) (e - Zpos k) loc_Exact
  = S754_finite s m e.
Proof.
  intros H He. unfold binary_round_aux.
  unfold shr_fexp at 1. unfold Zdigits2. rewrite digits2_pos_shift.
  replace (Zpos (digits2_pos m + k) + (e - Zpos k))
    with (Zpos (digits2_pos m) + e) by lia.
  rewrite H. replace (e - (e - Zpos k)) with (Zpos k) by lia.
  unfold shr. cbn [shr_record_of_loc]. rewrite shr_shift.
  cbn [shr_m loc_of_shr_record round_nearest_even].
  replace (e - Zpos k + Zpos k) with e by lia.
  rewrite shr_fexp_exact by assumption. cbn [shr_m].
  destruct (Z.leb_spec e (emx - p)); [reflexivity|lia].
Qed.

(** On every float32 value [sqrt] returns its argument. *)
Lemma sqrt_identity (x : float32) :
  valid_binary F32.prec F32.emax x = true -> sqrt x = x.
Proof.
  destruct x as [s|s| |s m e]; try reflexivity.
  unfold valid_binary, bounded, canonical_mantissa, F32.prec, F32.emax.
  intros H. apply andb_true_iff in H as [Hc He].
  apply Z.eqb_eq in Hc. apply Z.leb_le in He.
  assert (Hc' := Hc). unfold fexp, emin in Hc'.
  set (d := Zpos (digits2_pos m)) in *.
  assert (Hd : 0 < d) by (unfold d; lia).
  set (k := Z.to_pos (53 - d)).
  assert (Hk : Zpos k = 53 - d) by (unfold k; rewrite Z2Pos.id; lia).
  unfold sqrt.
  assert (H64 : F32.to_float64 (S754_finite s m e)
                = S754_finite s (Pos.iter xO m k) (e - Zpos k)).
  { unfold F32.to_float64, F32.convert, binary_round, shl_align. fold d.
    replace (fexp 53 1024 (d + e)) with (e - Zpos k)
      by (unfold fexp, emin; lia).
    replace (e - Zpos k - e) with (Zneg k) by lia.
    apply round_aux_exact.
    - rewrite digits2_pos_shift. unfold fexp, emin. fold d. lia.
    - lia. }
  rewrite H64.
  unfold F32.of_float64, F32.convert, binary_round, shl_align, F32.prec, F32.emax.
  rewrite digits2_pos_shift.
  replace (Zpos (digits2_pos m + k) + (e - Zpos k)) with (d + e)
    by (unfold d; lia).
  rewrite Hc. replace (e - (e - Zpos k)) with (Zpos k) by lia.
  apply round_aux_shift; [exact Hc|lia].
Qed.

(** X8. [sqrt] returns its argument, so whenever the accumulated norms are
    float32 values [cosineSimilarity] divides the dot product by the
    product of the squared norms, not by the product of the norms. *)
Lemma cosineSimilarity_no_root a b dot na nb :
  cosineLoop a b (F32.zero, F32.zero, F32.zero) = Some (dot, na, nb) ->
  valid_binary F32.prec F32.emax na = true ->
  valid_binary F32.prec F32.emax nb = true ->
  cosineSimilarity a b = Some (F32.div dot (F32.mul na nb)).
Proof.
  intros Hloop Ha Hb. unfold cosineSimilarity.
  by rewrite Hloop, !sqrt_identity.
Qed.

(** C4, the code at a vector of norm 1/2.  [sqrt] returns its argument
    ([sqrt 0.25 = 0.25]), so the dot product is divided by the product of
    the squared norms: for [a = b = [0.5]] the result is
    [0.25 / (0.25 * 0.25) = 4], outside [[-1, 1]]. *)
Theorem cosineSimilarity_out_of_bounds :
  sqrt (F32.lit 1 (-2)) = F32.lit 1 (-2)
  /\ cosineSimilarity [F32.lit 1 (-1)] [F32.lit 1 (-1)] = Some (F32.lit 4 0)
  /\ F32.leb (F32.lit 4 0) (F32.lit 1 0) = false
  /\ F32.ltb (F32.lit 1 0) (F32.lit 4 0) = true.
Proof. repeat split. Qed.

(** ** findRelevantDocuments *)

Lemma scoreLoop_docs r q docs : forall scores out,
  scoreLoop r q docs scores = Returns out ->
  map doc out = map doc scores ++ docs.
Proof.
  induction docs as [|d docs IH]; intros scores out Hrun; simpl in Hrun.
  - injection Hrun as <-. by rewrite app_nil_r.
  - destruct (cosineSimilarity q (embeddingOf r d)) as [similarity|];
      [|discriminate].
    apply IH in Hrun. rewrite Hrun, map_app. simpl. by rewrite <- app_assoc.
Qed.

(** Whatever the scores, [findRelevantDocuments] returns the first three
    chunks of the index in ingestion order: at most three, and all of them
    when the index holds fewer. *)
Lemma findRelevantDocuments_first_three r q docs :
  findRelevantDocuments r q = Returns docs ->
  docs = take 3 (documents r)
  /\ (length docs <= 3)%nat
  /\ ((length (documents r) <= 3)%nat -> docs = documents r).
Proof.
  unfold findRelevantDocuments.
  destruct (scoreLoop r q (documents r) []) as [scores|] eqn:Hrun; [|discriminate].
  intros [= <-]. apply scoreLoop_docs in Hrun. simpl in Hrun.
  assert (Hdocs : map doc (take 3 scores) = take 3 (documents r)).
  { rewrite <- Hrun. by rewrite <- fmap_take. }
  rewrite Hdocs. split; [reflexivity|]. split.
  - rewrite length_take. lia.
  - intros Hlen. by apply take_ge.
Qed.

(** C1, the code on an index whose best match was ingested last.  The
    scores of the four chunks against the query are [-1, 0, 0, 1] in
    ingestion order; [findRelevantDocuments] returns the first three chunks
    as they stand, in ascending order of score, and leaves out the chunk
    with the highest score. *)
Theorem findRelevantDocuments_unsorted :
  documents fourNotes
  = [note "storage"; note "network"; note "billing"; note "scaling"]
  /\ map (fun d => cosineSimilarity (bySubject (runes "scaling"))
                     (embeddingOf fourNotes d)) (documents fourNotes)
     = [Some (F32.lit (-1) 0); Some F32.zero; Some F32.zero; Some (F32.lit 1 0)]
  /\ findRelevantDocuments fourNotes (bySubject (runes "scaling"))
     = Returns [note "storage"; note "network"; note "billing"]
  /\ F32.ltb (F32.lit (-1) 0) F32.zero = true
  /\ F32.ltb F32.zero (F32.lit 1 0) = true.
Proof. repeat split; vm_compute; reflexivity. Qed.

(** * Further properties of the package *)

(** ** Chunks as texts *)

Lemma Join_cons_nonempty e rest sep :
  rest <> [] -> Join (e :: rest) sep = e ++ sep ++ Join rest sep.
Proof. by destruct rest. Qed.

Lemma Join_app xs ys sep :
  xs <> [] -> ys <> [] ->
  Join (xs ++ ys) sep = Join xs sep ++ sep ++ Join ys sep.
Proof.
  intros Hxs Hys. induction xs as [|x xs IH]; [done|].
  destruct xs as [|x' xs].
  - simpl app. by rewrite Join_cons_nonempty.
  - change ((x :: x' :: xs) ++ ys) with (x :: (x' :: xs) ++ ys).
    rewrite Join_cons_nonempty by done.
    rewrite IH by done.
    rewrite (Join_cons_nonempty x (x' :: xs)) by done.
    by rewrite <- !app_assoc.
Qed.

(** Joining the joined groups is joining all the words. *)
Lemma Join_joinWords groups :
  Forall (fun g => g <> []) groups ->
  Join (map joinWords groups) space = Join (concat groups) space.
Proof.
  induction 1 as [|g gs Hg Hgs IH]; [done|].
  destruct gs as [|g' gs].
  - simpl. by rewrite app_nil_r.
  - change (map joinWords (g :: g' :: gs))
      with (joinWords g :: map joinWords (g' :: gs)).
    rewrite Join_cons_nonempty by done. rewrite IH.
    change (concat (g :: g' :: gs)) with (g ++ concat (g' :: gs)).
    rewrite Join_app; [done|done|].
    inversion Hgs; subst. simpl. by destruct g'.
Qed.

(** The chunks for any chunk size: the space-joined groups of a partition
    of the words into non-empty groups. *)
Lemma splitIntoChunks_partition r t :
  exists groups,
    splitIntoChunks r t = map joinWords groups
    /\ concat groups = Fields t
    /\ Forall (fun g => g <> []) groups.
Proof.
  destruct (Z.le_gt_cases (chunkSize r) 0) as [Hn|Hn].
  - exists (map (fun w => [w]) (Fields t)).
    rewrite splitIntoChunks_single by lia. repeat split.
    + rewrite map_map. simpl. by rewrite map_id.
    + induction (Fields t) as [|w ws IH]; [done|]. simpl. by rewrite IH.
    + apply Forall_map. by apply Forall_forall.
  - destruct (splitIntoChunks_groups r t) as (groups & Hsplit & Hcat & Hsize & _);
      [lia|].
    exists groups. repeat split; try assumption.
    eapply Forall_impl; [exact Hsize|]. by intros g [Hg _].
Qed.

Lemma Fields_normalize t : Fields (normalize t) = Fields t.
Proof. unfold normalize. apply Fields_Join, Fields_words. Qed.

(** X1. For every chunk size, positive or not, joining the chunks of a text
    by single spaces gives the whitespace-normalized text: chunking loses
    nothing but the original spacing. *)
Theorem splitIntoChunks_join (r : RAG) (t : text) :
  Join (splitIntoChunks r t) space = normalize t.
Proof.
  destruct (splitIntoChunks_partition r t) as (groups & -> & Hcat & Hne).
  unfold normalize. rewrite <- Hcat. by apply Join_joinWords.
Qed.

(** X2. The chunks depend on the words of the text only: a text and its
    whitespace-normalized form are cut into the same chunks. *)
Theorem splitIntoChunks_normalize (r : RAG) (t : text) :
  splitIntoChunks r (normalize t) = splitIntoChunks r t.
Proof. unfold splitIntoChunks. by rewrite Fields_normalize. Qed.

Lemma concat_nil_nonempty {A} (groups : list (list A)) :
  Forall (fun g => g <> []) groups -> concat groups = [] -> groups = [].
Proof.
  intros Hne Hcat. destruct groups as [|g gs]; [done|].
  inversion Hne; subst. simpl in Hcat. by destruct g.
Qed.

Lemma splitIntoChunks_nil_iff r t :
  splitIntoChunks r t = [] <-> wordCount t = 0%nat.
Proof.
  destruct (splitIntoChunks_partition r t) as (groups & -> & Hcat & Hne).
  unfold wordCount. rewrite <- Hcat. split.
  - intros Hnil. by destruct groups.
  - intros Hlen. apply length_zero_iff_nil in Hlen.
    by rewrite (concat_nil_nonempty groups Hne Hlen).
Qed.

(** X3. For every chunk size, every chunk is non-empty and is its own
    whitespace-normalized form (no leading, trailing or repeated white
    space), and there is no chunk exactly when the text has no word. *)
Theorem splitIntoChunks_chunks_normalized (r : RAG) (t : text) :
  Forall (fun c => c <> [] /\ normalize c = c) (splitIntoChunks r t)
  /\ (splitIntoChunks r t = [] <-> wordCount t = 0%nat).
Proof.
  split; [|apply splitIntoChunks_nil_iff].
  destruct (splitIntoChunks_partition r t) as (groups & -> & Hcat & Hne).
  assert (Hwords : Forall (Forall isWord) groups).
  { pose proof (Fields_words t) as Hw. rewrite <- Hcat in Hw. clear -Hw.
    induction groups as [|g gs IH]; [constructor|].
    simpl in Hw. apply Forall_app in Hw as [Hg Hgs]. constructor; auto. }
  - clear Hcat. induction groups as [|g gs IH]; [constructor|].
    inversion Hne; inversion Hwords; subst. constructor; [|by apply IH].
    unfold normalize, joinWords. rewrite Fields_Join by assumption.
    split; [|reflexivity].
    destruct g as [|w g]; [done|].
    match goal with H : Forall isWord (w :: g) |- _ =>
      inversion H as [|? ? [Hw _] _]; subst end.
    destruct g; simpl; [assumption|]. by destruct w.
Qed.

(** X4. With a positive chunk size every chunk but the last holds exactly
    [chunkSize] words. *)
Theorem splitIntoChunks_full_chunks (r : RAG) (t : text) (i : nat) (c : text) :
  0 < chunkSize r ->
  splitIntoChunks r t !! i = Some c ->
  (S i < length (splitIntoChunks r t))%nat ->
  Z.of_nat (wordCount c) = chunkSize r.
Proof.
  intros Hn. unfold splitIntoChunks.
  destruct (chunkLoop_groups (chunkSize r) (Fields t) [] [] Hn ltac:(simpl; lia))
    as (groups & cur' & Hrun & Hcat & Hfull & Hrest).
  rewrite Hrun. simpl in Hcat. simpl.
  assert (Hwords : Forall (Forall isWord) groups).
  { pose proof (Fields_words t) as Hw. rewrite <- Hcat in Hw.
    apply Forall_app in Hw as [Hw _]. clear -Hw.
    induction groups as [|g gs IH]; [constructor|].
    simpl in Hw. apply Forall_app in Hw as [Hg Hgs]. constructor; auto. }
  assert (Hin : forall j, (j < length groups)%nat ->
                map joinWords groups !! j = Some c ->
                Z.of_nat (wordCount c) = chunkSize r).
  { intros j Hj Hc. rewrite list_lookup_fmap in Hc.
    destruct (groups !! j) as [g|] eqn:Hg; [|discriminate].
    injection Hc as <-.
    unfold wordCount, joinWords. rewrite Fields_Join.
    - by apply (Forall_lookup_1 _ _ _ _ Hfull Hg).
    - by apply (Forall_lookup_1 _ _ _ _ Hwords Hg). }
  destruct (0 <? length cur')%nat.
  - intros Hc Hlen. rewrite length_app, length_map in Hlen. simpl in Hlen.
    apply (Hin i); [lia|].
    rewrite lookup_app_l in Hc; [assumption|]. rewrite length_map. lia.
  - intros Hc Hlen. rewrite length_map in Hlen. apply (Hin i); [lia|assumption].
Qed.

(** Chunk size 3 on a text of seven words: the first chunk is full. *)
Lemma splitIntoChunks_full_chunks_witness :
  Z.of_nat (wordCount (runes "a b c")) = chunkSize (withChunkSize 3).
Proof.
  apply (splitIntoChunks_full_chunks (withChunkSize 3)
           (runes "a b c  d e f g") 0 (runes "a b c")).
  - reflexivity.
  - reflexivity.
  - vm_compute. lia.
Defined.

(** ** cosineSimilarity on vectors of different lengths *)

Lemma cosineLoop_None a : forall b acc,
  cosineLoop a b acc = None <-> (length b < length a)%nat.
Proof.
  induction a as [|ai a IH]; intros b [[dot na] nb]; simpl.
  - split; [discriminate|lia].
  - destruct b as [|bi b]; simpl.
    + split; [lia|done].
    + rewrite IH. lia.
Qed.

Lemma cosineLoop_take a : forall b acc,
  cosineLoop a (take (length a) b) acc = cosineLoop a b acc.
Proof.
  induction a as [|ai a IH]; intros b [[dot na] nb]; simpl; [done|].
  destruct b as [|bi b]; simpl; [done|]. apply IH.
Qed.

Lemma cosineSimilarity_None a b :
  cosineSimilarity a b = None <-> (length b < length a)%nat.
Proof.
  unfold cosineSimilarity. rewrite <- (cosineLoop_None a b (F32.zero, F32.zero, F32.zero)).
  destruct (cosineLoop a b _) as [[[dot na] nb]|]; [|done].
  split; discriminate.
Qed.

(** X5. [cosineSimilarity a b] panics (index out of range) exactly when
    [b] is shorter than [a]; in every other case it returns a value. *)
Theorem cosineSimilarity_panics_iff (a b : list float32) :
  cosineSimilarity a b = None <-> (length b < length a)%nat.
Proof. apply cosineSimilarity_None. Qed.

(** X6. [cosineSimilarity a b] reads the first [length a] entries of [b]
    only: whatever [b] holds beyond them does not change the result. *)
Theorem cosineSimilarity_reads_prefix (a b : list float32) :
  cosineSimilarity a (take (length a) b) = cosineSimilarity a b.
Proof. unfold cosineSimilarity. by rewrite cosineLoop_take. Qed.

(** X7. [cosineSimilarity] is symmetric on vectors of one length, and on
    vectors of different lengths exactly one of the two orders panics. *)
Theorem cosineSimilarity_symmetry_domain (a b : list float32) :
  (length a = length b -> cosineSimilarity a b = cosineSimilarity b a)
  /\ (length a <> length b ->
      (cosineSimilarity a b = None <-> cosineSimilarity b a <> None)).
Proof.
  split; [apply cosineSimilarity_symmetric|].
  intros Hne. rewrite !cosineSimilarity_None. lia.
Qed.

(** Vectors of length two, and vectors of lengths one and two. *)
Lemma cosineSimilarity_symmetry_domain_witness :
  cosineSimilarity [F32.lit 1 0; F32.lit 2 0] [F32.lit 3 0; F32.lit (-1) 0]
  = cosineSimilarity [F32.lit 3 0; F32.lit (-1) 0] [F32.lit 1 0; F32.lit 2 0]
  /\ (cosineSimilarity [F32.lit 1 0; F32.zero] [F32.lit 1 0] = None
      <-> cosineSimilarity [F32.lit 1 0] [F32.lit 1 0; F32.zero] <> None).
Proof.
  split.
  - apply (cosineSimilarity_symmetry_domain
             [F32.lit 1 0; F32.lit 2 0] [F32.lit 3 0; F32.lit (-1) 0]).
    reflexivity.
  - apply (cosineSimilarity_symmetry_domain
             [F32.lit 1 0; F32.zero] [F32.lit 1 0]).
    simpl. lia.
Defined.

(** The norms 1/4 of [a = b = [0.5]]. *)
Lemma cosineSimilarity_no_root_witness :
  cosineSimilarity [F32.lit 1 (-1)] [F32.lit 1 (-1)]
  = Some (F32.div (F32.lit 1 (-2)) (F32.mul (F32.lit 1 (-2)) (F32.lit 1 (-2)))).
Proof.
  apply (cosineSimilarity_no_root [F32.lit 1 (-1)] [F32.lit 1 (-1)]
           (F32.lit 1 (-2)) (F32.lit 1 (-2)) (F32.lit 1 (-2)));
    reflexivity.
Defined.

(** ** findRelevantDocuments and Query *)

Lemma scoreLoop_Panics r q docs : forall scores,
  scoreLoop r q docs scores = Panics
  <-> Exists (fun d => (length (embeddingOf r d) < length q)%nat) docs.
Proof.
  induction docs as [|d docs IH]; intros scores; simpl.
  - rewrite Exists_nil. split; [discriminate|done].
  - rewrite Exists_cons, <- cosineSimilarity_None.
    destruct (cosineSimilarity q (embeddingOf r d)) as [similarity|].
    + rewrite IH. split; [auto|]. by intros [?|?].
    + split; auto.
Qed.

Lemma findRelevantDocuments_Panics r q :
  findRelevantDocuments r q = Panics
  <-> Exists (fun d => (length (embeddingOf r d) < length q)%nat) (documents r).
Proof.
  unfold findRelevantDocuments. rewrite <- (scoreLoop_Panics r q (documents r) []).
  destruct (scoreLoop r q (documents r) []); [|done].
  split; discriminate.
Qed.

(** X9. [findRelevantDocuments] scores every chunk of the index, not only
    the three it returns: it panics exactly when some indexed chunk, at any
    position, has an embedding shorter than the query embedding (a chunk
    without an entry in the map counts as the empty embedding). *)
Theorem findRelevantDocuments_panics_iff (r : RAG) (q : list float32) :
  findRelevantDocuments r q = Panics
  <-> Exists (fun d => (length (embeddingOf r d) < length q)%nat) (documents r).
Proof. apply findRelevantDocuments_Panics. Qed.

(** X10. When the embedding of the question is obtained and no indexed
    embedding is shorter than it, [Query] asks for the answer with the
    context built from the first three chunks of the index in ingestion
    order, whatever the question is. *)
Theorem Query_context_first_three {B : Backend} (question : text) (r : RAG)
    (w w1 : World B) (questionEmbedding : list float32) :
  getEmbedding question (r, w) = (Returns (Value questionEmbedding), (r, w1)) ->
  Forall (fun d => (length questionEmbedding <= length (embeddingOf r d))%nat)
         (documents r) ->
  Query question (r, w)
  = generateAnswer (buildContext r (take 3 (documents r))) question (r, w1).
Proof.
  intros Hemb Hlen. unfold Query. unfold mbind at 1, M_bind at 1. rewrite Hemb.
  unfold mbind, M_bind, getRAG. simpl.
  destruct (findRelevantDocuments r questionEmbedding) as [docs|] eqn:Hfind.
  - by apply findRelevantDocuments_first_three in Hfind as [-> _].
  - apply findRelevantDocuments_Panics in Hfind.
    apply Exists_exists in Hfind as (d & Hd & Hshort).
    rewrite Forall_forall in Hlen. specialize (Hlen d Hd). lia.
Qed.

(** The question "scaling" on the index of the four notes: the context
    holds the notes on storage, network and billing. *)
Lemma Query_context_first_three_witness :
  @Query subjects (runes "scaling") (fourNotes, tt)
  = @generateAnswer subjects
      (buildContext fourNotes [note "storage"; note "network"; note "billing"])
      (runes "scaling") (fourNotes, tt).
Proof.
  apply (@Query_context_first_three subjects (runes "scaling") fourNotes tt tt
           (bySubject (runes "scaling"))).
  - vm_compute. reflexivity.
  - vm_compute. repeat constructor.
Defined.

(** ** AddDocument: what it adds and what it keeps *)

Lemma store_keeps entries : forall (m : gmap text (list float32)) c,
  is_Some (m !! c) -> is_Some (store m entries !! c).
Proof.
  unfold store. induction entries as [|[k v] entries IH]; intros m c Hc; [done|].
  simpl. apply IH. destruct (decide (k = c)) as [->|Hne].
  - rewrite lookup_insert_eq. eauto.
  - by rewrite lookup_insert_ne.
Qed.

Lemma dom_store entries : forall (m : gmap text (list float32)),
  dom (store m entries) = dom m ∪ list_to_set (entries.*1).
Proof.
  unfold store. induction entries as [|[k v] entries IH]; intros m; simpl.
  - by rewrite union_empty_r_L.
  - rewrite IH, dom_insert_L.
    by rewrite (union_comm_L {[k]} (dom m)), <- union_assoc_L.
Qed.

Section MoreIngestion.
Context {B : Backend}.

Lemma addChunks_all d entries :
  forall (r0 r : RAG) (w w1 : World B),
  useOpenAI r = useOpenAI r0 -> openaiClient r = openaiClient r0 ->
  Embedded r0 entries w w1 ->
  addChunks d (entries.*1) (r, w) = (Returns None, (indexed r d entries, w1)).
Proof.
  induction entries as [|[chunk embedding] entries IH];
    intros r0 r w w1 Huse Hclient Hemb.
  - inversion Hemb; subst. simpl. by rewrite indexed_nil.
  - inversion Hemb as [|? ? ? ? wm ? Hfirst Hrest]; subst. simpl.
    unfold mbind at 1, M_bind at 1.
    rewrite (getEmbedding_agree _ _ _ _ _ _ Huse Hclient Hfirst).
    unfold mbind at 1 2, M_bind at 1 2, getRAG, setRAG. simpl.
    erewrite IH; [|exact Huse|exact Hclient|exact Hrest].
    by rewrite <- indexed_cons.
Qed.

Lemma getEmbedding_claude_error t (r : RAG) (w : World B) :
  useOpenAI r = false ->
  getEmbedding t (r, w)
  = (Returns (Err "Claude mode requires an OpenAI API key for embeddings - this is not implemented yet"),
     (r, w)).
Proof.
  intros Hmode. unfold getEmbedding, mbind, M_bind, getRAG. simpl.
  by rewrite Hmode.
Qed.

(** Whatever its outcome, [AddDocument] leaves the receiver with a prefix
    of the chunks of the document indexed. *)
Lemma AddDocument_indexed d (r : RAG) (w : World B) :
  exists entries rest,
    splitIntoChunks r (Content d) = entries.*1 ++ rest
    /\ (snd (AddDocument d (r, w))).1 = indexed r d entries.
Proof.
  unfold AddDocument, mbind, M_bind, getRAG. simpl.
  destruct (addChunks d (splitIntoChunks r (Content d)) (r, w))
    as [out [r' w']] eqn:Hrun.
  apply addChunks_run in Hrun as (entries & rest & Hchunks & Hr' & _).
  by exists entries, rest.
Qed.

(** X11. If the embedding calls for all the chunks of a document succeed,
    [AddDocument] returns no error, has appended every chunk to [documents]
    in order, with the source and type of the document, and has stored
    every embedding under the text of its chunk. *)
Theorem AddDocument_all_embedded (d : Document) (r : RAG) (w w1 : World B)
    entries :
  splitIntoChunks r (Content d) = entries.*1 ->
  Embedded r entries w w1 ->
  exists r',
    AddDocument d (r, w) = (Returns None, (r', w1))
    /\ documents r' = documents r ++ map (chunkDoc d) (entries.*1)
    /\ embeddings r' = store (embeddings r) entries
    /\ dom (embeddings r') = dom (embeddings r) ∪ list_to_set (entries.*1).
Proof.
  intros Hsplit Hemb. exists (indexed r d entries). split.
  - unfold AddDocument, mbind, M_bind, getRAG. simpl. rewrite Hsplit.
    by apply addChunks_all with (r0 := r).
  - repeat split. apply dom_store.
Qed.

(** X12. [AddDocument] keeps the index covered: if every chunk of the chunk
    list has an entry in the embeddings map before the call, so it is after
    it, whether the call returns no error, returns an error or panics. *)
Theorem AddDocument_keeps_index_covered (d : Document) (r : RAG) (w : World B) :
  indexCovered r -> indexCovered (snd (AddDocument d (r, w))).1.
Proof.
  intros Hcov. destruct (AddDocument_indexed d r w) as (entries & rest & _ & ->).
  intros x Hx. simpl in *. apply elem_of_app in Hx as [Hx|Hx].
  - apply store_keeps. by apply Hcov.
  - apply list_elem_of_fmap in Hx as (c & -> & Hc). simpl.
    by apply store_lookup.
Qed.

(** X13. Whatever its outcome, [AddDocument] only adds to the index: the
    chunk list before the call is a prefix of the chunk list after it, no
    key leaves the embeddings map, and the chunk size, the token budget,
    the mode and the clients are unchanged. *)
Theorem AddDocument_only_appends (d : Document) (r : RAG) (w : World B) :
  documents r `prefix_of` documents (snd (AddDocument d (r, w))).1
  /\ dom (embeddings r) ⊆ dom (embeddings (snd (AddDocument d (r, w))).1)
  /\ chunkSize (snd (AddDocument d (r, w))).1 = chunkSize r
  /\ maxTokens (snd (AddDocument d (r, w))).1 = maxTokens r
  /\ useOpenAI (snd (AddDocument d (r, w))).1 = useOpenAI r
  /\ openaiClient (snd (AddDocument d (r, w))).1 = openaiClient r
  /\ claudeClient (snd (AddDocument d (r, w))).1 = claudeClient r.
Proof.
  destruct (AddDocument_indexed d r w) as (entries & rest & _ & ->). simpl.
  split; [by eexists|]. split; [|done].
  rewrite dom_store. apply union_subseteq_l.
Qed.

(** X14. A document without a word (empty or white space only) is added
    without any call to a service and without any change, in either mode:
    [AddDocument] returns no error. *)
Theorem AddDocument_no_words (d : Document) (r : RAG) (w : World B) :
  wordCount (Content d) = 0%nat ->
  AddDocument d (r, w) = (Returns None, (r, w)).
Proof.
  intros Hwords. apply (splitIntoChunks_nil_iff r) in Hwords.
  unfold AddDocument, mbind, M_bind, getRAG. simpl. by rewrite Hwords.
Qed.

(** X15. In Claude mode a document with at least one word cannot be added:
    [AddDocument] returns the Claude mode error of [getEmbedding], calls no
    service and leaves the index as it was. *)
Theorem AddDocument_claude_mode (d : Document) (r : RAG) (w : World B) :
  useOpenAI r = false ->
  wordCount (Content d) <> 0%nat ->
  AddDocument d (r, w)
  = (Returns (Some (Errorf "failed to get embedding: "
       "Claude mode requires an OpenAI API key for embeddings - this is not implemented yet")),
     (r, w)).
Proof.
  intros Hmode Hwords.
  pose proof (splitIntoChunks_nil_iff r (Content d)) as Hnil.
  unfold AddDocument, mbind, M_bind, getRAG. simpl.
  destruct (splitIntoChunks r (Content d)) as [|chunk chunks].
  - exfalso. by apply Hwords, Hnil.
  - simpl. unfold mbind at 1, M_bind at 1.
    by rewrite (getEmbedding_claude_error chunk r w Hmode).
Qed.

(** X16. In Claude mode [Query] fails for every question: it returns the
    Claude mode error of [getEmbedding], calls no service, not even the
    generation service that the mode was chosen for, and changes nothing. *)
Theorem Query_claude_mode (question : text) (r : RAG) (w : World B) :
  useOpenAI r = false ->
  Query question (r, w)
  = (Returns (Err (Errorf "failed to get question embedding: "
       "Claude mode requires an OpenAI API key for embeddings - this is not implemented yet")),
     (r, w)).
Proof.
  intros Hmode. unfold Query. unfold mbind at 1, M_bind at 1.
  by rewrite (getEmbedding_claude_error question r w Hmode).
Qed.

End MoreIngestion.

(** Five words with the default chunk size: one chunk, one embedding. *)
Lemma AddDocument_all_embedded_witness :
  exists r',
    @AddDocument constant fiveWords (NewRAG (runes "key"), tt)
    = (Returns None, (r', tt))
    /\ documents r'
       = documents (NewRAG (runes "key"))
         ++ map (chunkDoc fiveWords) [runes "a b c d e"]
    /\ embeddings r'
       = store (embeddings (NewRAG (runes "key")))
           [(runes "a b c d e", [F32.lit 1 0; F32.zero])]
    /\ dom (embeddings r')
       = dom (embeddings (NewRAG (runes "key")))
         ∪ list_to_set [runes "a b c d e"].
Proof.
  apply (@AddDocument_all_embedded constant fiveWords (NewRAG (runes "key"))
           tt tt [(runes "a b c d e", [F32.lit 1 0; F32.zero])]).
  - reflexivity.
  - apply Embedded_cons with (w1 := tt); [reflexivity|]. apply Embedded_nil.
Defined.

(** A new orchestrator and an ingestion that fails on its third chunk. *)
Lemma AddDocument_keeps_index_covered_witness :
  indexCovered (NewRAG (runes "key"))
  /\ indexCovered
       (snd (@AddDocument flaky fiveWords (withChunkSize 1, 0%nat))).1.
Proof.
  assert (Hnew : forall n, indexCovered (withChunkSize n)).
  { intros n d Hd. by apply elem_of_nil in Hd. }
  split; [exact (Hnew 1000)|].
  apply (@AddDocument_keeps_index_covered flaky fiveWords (withChunkSize 1) 0%nat).
  exact (Hnew 1).
Defined.

(** A document of three spaces, with every service unreachable. *)
Lemma AddDocument_no_words_witness :
  wordCount (Content blank) = 0%nat
  /\ @AddDocument offline blank (NewRAG (runes "key"), tt)
     = (Returns None, (NewRAG (runes "key"), tt)).
Proof.
  split; [reflexivity|].
  apply (@AddDocument_no_words offline blank (NewRAG (runes "key")) tt).
  reflexivity.
Defined.

(** The orchestrator made by [NewRAGWithClaude], with services that would
    embed any text. *)
Lemma AddDocument_claude_mode_witness :
  @AddDocument constant fiveWords (NewRAGWithClaude (runes "key"), tt)
  = (Returns (Some (Errorf "failed to get embedding: "
       "Claude mode requires an OpenAI API key for embeddings - this is not implemented yet")),
     (NewRAGWithClaude (runes "key"), tt)).
Proof.
  apply (@AddDocument_claude_mode constant fiveWords
           (NewRAGWithClaude (runes "key")) tt).
  - reflexivity.
  - vm_compute. discriminate.
Defined.

Lemma Query_claude_mode_witness :
  @Query constant (runes "how does Kubernetes scale")
    (NewRAGWithClaude (runes "key"), tt)
  = (Returns (Err (Errorf "failed to get question embedding: "
       "Claude mode requires an OpenAI API key for embeddings - this is not implemented yet")),
     (NewRAGWithClaude (runes "key"), tt)).
Proof.
  apply (@Query_claude_mode constant (runes "how does Kubernetes scale")
           (NewRAGWithClaude (runes "key")) tt).
  reflexivity.
Defined.

(** ** buildContext *)

Lemma buildContext_fold docs : forall (init : text),
  fold_left
    (fun context d =>
       (context ++ (runes "Source: " ++ Source d ++ newline))
         ++ (Content d ++ newline ++ newline))
    docs init
  = init ++ concat (map contextEntry docs).
Proof.
  induction docs as [|d docs IH]; intros init; cbn [fold_left map concat].
  - by rewrite app_nil_r.
  - rewrite IH. unfold contextEntry. by rewrite <- !app_assoc.
Qed.

(** X17. The context is the preamble followed, for every document in the
    order given, by its source line, its content and an empty line; no
    document is left out, and the context of a longer list extends the
    context of its beginning. *)
Theorem buildContext_entries (r : RAG) (docs more : list Document) :
  buildContext r docs = preamble ++ concat (map contextEntry docs)
  /\ buildContext r (docs ++ more)
     = buildContext r docs ++ concat (map contextEntry more).
Proof.
  unfold buildContext. rewrite !buildContext_fold. split; [done|].
  by rewrite map_app, concat_app, <- !app_assoc.
Qed.

(** ** The configuration step of the callers *)

(** X18. The configuration step keeps the configuration positive: from a
    receiver with positive chunk size and token budget, as the constructors
    make it, [applyConfig] gives a receiver with positive chunk size and
    token budget whatever the configured values are, and leaves the index
    and the mode alone. *)
Theorem applyConfig_keeps_positive {B : Backend} (r : RAG) (w : World B)
    (configChunkSize configMaxTokens : Z) :
  0 < chunkSize r -> 0 < maxTokens r ->
  0 < chunkSize (snd (applyConfig configChunkSize configMaxTokens (r, w))).1
  /\ 0 < maxTokens (snd (applyConfig configChunkSize configMaxTokens (r, w))).1
  /\ documents (snd (applyConfig configChunkSize configMaxTokens (r, w))).1
     = documents r
  /\ embeddings (snd (applyConfig configChunkSize configMaxTokens (r, w))).1
     = embeddings r
  /\ useOpenAI (snd (applyConfig configChunkSize configMaxTokens (r, w))).1
     = useOpenAI r.
Proof.
  intros Hc Hm. unfold applyConfig.
  destruct (Z.gtb_spec configChunkSize 0), (Z.gtb_spec configMaxTokens 0);
    simpl; repeat split; lia.
Qed.

(** A new orchestrator configured with chunk size 0 and token budget -5:
    the defaults stay. *)
Lemma applyConfig_keeps_positive_witness :
  0 < chunkSize (snd (@applyConfig offline 0 (-5) (NewRAG (runes "key"), tt))).1
  /\ 0 < maxTokens (snd (@applyConfig offline 0 (-5) (NewRAG (runes "key"), tt))).1.
Proof.
  destruct (@applyConfig_keeps_positive offline (NewRAG (runes "key")) tt 0 (-5))
    as (Hc & Hm & _); [reflexivity|reflexivity|].
  split; [exact Hc|exact Hm].
Defined.

(** ** The query command: choosing the mode and loading the knowledge base *)

Lemma useClaudeIfAvailable_true claudeKey :
  useClaudeIfAvailable claudeKey = true
  <-> claudeKey <> [] /\ claudeKey <> runes "your-claude-api-key-here".
Proof.
  unfold useClaudeIfAvailable.
  rewrite andb_true_iff, !negb_true_iff, !bool_decide_eq_false. done.
Qed.

Section MoreLoading.
Context {B : Backend}.

Lemma applyConfig_mode (r : RAG) (w : World B) c m :
  useOpenAI (snd (applyConfig c m (r, w))).1 = useOpenAI r.
Proof. unfold applyConfig. by destruct (c >? 0), (m >? 0). Qed.

(** X19. Whenever a Claude key is configured (not empty and not the
    placeholder), the orchestrator of the query command is in Claude mode
    and, whatever the chunk size and token budget of the configuration,
    [Query] fails for every question with the Claude mode error: with a
    Claude key the command cannot answer. *)
Theorem query_command_claude_key (openAIKey claudeKey question : text)
    (configChunkSize configMaxTokens : Z) (w w' : World B) :
  claudeKey <> [] ->
  claudeKey <> runes "your-claude-api-key-here" ->
  Query question
    ((snd (applyConfig configChunkSize configMaxTokens
             (newRAGSystem openAIKey claudeKey, w))).1, w')
  = (Returns (Err (Errorf "failed to get question embedding: "
       "Claude mode requires an OpenAI API key for embeddings - this is not implemented yet")),
     ((snd (applyConfig configChunkSize configMaxTokens
              (newRAGSystem openAIKey claudeKey, w))).1, w')).
Proof.
  intros Hne Hph.
  assert (Hmode : useOpenAI (snd (applyConfig configChunkSize configMaxTokens
                     (newRAGSystem openAIKey claudeKey, w))).1 = false).
  { rewrite applyConfig_mode. unfold newRAGSystem.
    by rewrite (proj2 (useClaudeIfAvailable_true claudeKey)). }
  unfold Query. unfold mbind at 1, M_bind at 1.
  by rewrite (getEmbedding_claude_error question _ w' Hmode).
Qed.

Lemma addDocuments_claude_mode d docs (r : RAG) (w : World B) :
  useOpenAI r = false ->
  wordCount (Content d) <> 0%nat ->
  addDocuments (d :: docs) (r, w)
  = (Returns (Some (Errorf "failed to get embedding: "
       "Claude mode requires an OpenAI API key for embeddings - this is not implemented yet")),
     (r, w)).
Proof.
  intros Hmode Hwords. simpl. unfold mbind at 1, M_bind at 1.
  pose proof (splitIntoChunks_nil_iff r (Content d)) as Hnil.
  unfold AddDocument, mbind, M_bind, getRAG. simpl.
  destruct (splitIntoChunks r (Content d)) as [|chunk chunks].
  - exfalso. by apply Hwords, Hnil.
  - simpl. unfold mbind at 1, M_bind at 1.
    by rewrite (getEmbedding_claude_error chunk r w Hmode).
Qed.

(** X20. In Claude mode [loadExampleDocuments] adds nothing: it returns the
    Claude mode error at the first example document, calls no service and
    leaves the index as it was. *)
Theorem loadExampleDocuments_claude_mode (r : RAG) (w : World B) :
  useOpenAI r = false ->
  loadExampleDocuments (r, w)
  = (Returns (Some (Errorf "failed to get embedding: "
       "Claude mode requires an OpenAI API key for embeddings - this is not implemented yet")),
     (r, w)).
Proof.
  intros Hmode. unfold loadExampleDocuments, exampleDocuments.
  apply addDocuments_claude_mode; [assumption|].
  vm_compute. discriminate.
Qed.

Lemma indexed_indexed r d1 es1 d2 es2 :
  documents (indexed (indexed r d1 es1) d2 es2)
  = documents r ++ map (chunkDoc d1) (es1.*1) ++ map (chunkDoc d2) (es2.*1).
Proof. simpl. by rewrite <- app_assoc. Qed.

(** When the loop over the documents returns no error, the chunks of the
    documents have been appended in order and the configuration is as it
    was. *)
Lemma addDocuments_success docs : forall (r : RAG) (w : World B) r' w',
  addDocuments docs (r, w) = (Returns None, (r', w')) ->
  documents r'
  = documents r
    ++ concat (map (fun d => map (chunkDoc d) (splitIntoChunks r (Content d))) docs)
  /\ chunkSize r' = chunkSize r.
Proof.
  induction docs as [|d docs IH]; intros r w r' w' Hrun.
  - injection Hrun as <- <-. simpl. by rewrite app_nil_r.
  - simpl in Hrun. unfold mbind at 1, M_bind at 1 in Hrun.
    destruct (AddDocument d (r, w)) as [[[err|]|] [r1 w1]] eqn:Hadd;
      try discriminate.
    apply AddDocument_success in Hadd as (entries & Hsplit & ->).
    apply IH in Hrun as [Hdocs Hsize]. simpl in Hsize. split; [|exact Hsize].
    rewrite Hdocs. simpl. by rewrite Hsplit, <- app_assoc.
Qed.

(** X21. When [loadExampleDocuments] returns no error, the chunk list has
    grown by the chunks of the three example documents, document after
    document and chunk after chunk, each chunk with the source and type of
    its document. *)
Theorem loadExampleDocuments_success (r r' : RAG) (w w' : World B) :
  loadExampleDocuments (r, w) = (Returns None, (r', w')) ->
  documents r'
  = documents r
    ++ concat (map (fun d => map (chunkDoc d) (splitIntoChunks r (Content d)))
                   exampleDocuments).
Proof. intros Hrun. by apply addDocuments_success in Hrun as [-> _]. Qed.

End MoreLoading.

Section MoreKnowledgeBase.
Context {B : Backend} (H : Host B).



Lemma loadSources_appends sources :
  forall deferred (r : RAG) (w : World B) out deferred' r' w',
  loadSources H sources deferred (r, w) = (out, deferred', (r', w')) ->
  documents r `prefix_of` documents r' /\ chunkSize r' = chunkSize r
  /\ maxTokens r' = maxTokens r /\ useOpenAI r' = useOpenAI r.
Proof.
  induction sources as [|source sources IH];
    intros deferred r w out deferred' r' w' Hrun.
  - by injection Hrun as <- <- <- <-.
  - cbn [loadSources] in Hrun.
    destruct (Get H _ _) as [[body|err] w1]; [|by eapply IH].
    destruct (ReadAll H _ _) as [[content|err] w2]; [|by eapply IH].
    destruct (AddDocument_indexed
                {| Content := content; Source := cmd.Name source;
                   Type_ := cmd.Type_ source |} r w2)
      as (entries & rest & _ & Hr1).
    destruct (AddDocument _ (r, w2)) as [[[err|]|] [r1 w3]]; simpl in Hr1; subst r1.
    + apply IH in Hrun as (Hpre & Hc & Hm & Hu). simpl in *.
      split; [|done]. etrans; [|exact Hpre]. by eexists.
    + apply IH in Hrun as (Hpre & Hc & Hm & Hu). simpl in *.
      split; [|done]. etrans; [|exact Hpre]. by eexists.
    + injection Hrun as <- <- <- <-. simpl. split; [by eexists|done].
Qed.


(** X23. Once sources are configured, [loadKnowledgeBase] never returns an
    error: a source that cannot be fetched, read or added is skipped, so
    the call returns no error or panics.  Whatever happens, the chunk list
    from before the call is a prefix of the chunk list after it, and the
    chunk size, the token budget and the mode are unchanged. *)
Theorem loadKnowledgeBase_with_sources (r r' : RAG) (w w0 w' : World B)
    (sources : list cmd.RAGSource) out :
  UnmarshalSources H w = (Value sources, w0) ->
  sources <> [] ->
  loadKnowledgeBase H (r, w) = (out, (r', w')) ->
  (out = Returns None \/ out = Panics)
  /\ documents r `prefix_of` documents r'
  /\ chunkSize r' = chunkSize r /\ maxTokens r' = maxTokens r
  /\ useOpenAI r' = useOpenAI r.
Proof.
  intros Hconf Hne. unfold loadKnowledgeBase. rewrite Hconf.
  destruct sources as [|source sources]; [done|].
  destruct (loadSources H (source :: sources) [] (r, w0))
    as [[out1 deferred] [r1 w1]] eqn:Hrun.
  apply loadSources_appends in Hrun. intros Hres.
  destruct out1; injection Hres as <- <- <-; split; auto.
Qed.

End MoreKnowledgeBase.

(** A Claude key with the chunk size and token budget of the sample
    configuration. *)
Lemma query_command_claude_key_witness :
  @Query constant (runes "how does Kubernetes scale")
    ((snd (@applyConfig constant 500 2000
             (newRAGSystem (runes "sk-openai") (runes "sk-ant"), tt))).1, tt)
  = (Returns (Err (Errorf "failed to get question embedding: "
       "Claude mode requires an OpenAI API key for embeddings - this is not implemented yet")),
     ((snd (@applyConfig constant 500 2000
              (newRAGSystem (runes "sk-openai") (runes "sk-ant"), tt))).1, tt)).
Proof.
  apply (@query_command_claude_key constant (runes "sk-openai") (runes "sk-ant")
           (runes "how does Kubernetes scale") 500 2000 tt tt).
  - discriminate.
  - discriminate.
Defined.

Lemma loadExampleDocuments_claude_mode_witness :
  @loadExampleDocuments constant (NewRAGWithClaude (runes "key"), tt)
  = (Returns (Some (Errorf "failed to get embedding: "
       "Claude mode requires an OpenAI API key for embeddings - this is not implemented yet")),
     (NewRAGWithClaude (runes "key"), tt)).
Proof.
  apply (@loadExampleDocuments_claude_mode constant
           (NewRAGWithClaude (runes "key")) tt).
  reflexivity.
Defined.

(** The example documents loaded into a new orchestrator whose embedding
    calls succeed. *)
Lemma loadExampleDocuments_success_witness :
  documents (snd (@loadExampleDocuments constant (NewRAG (runes "key"), tt))).1
  = documents (NewRAG (runes "key"))
    ++ concat (map (fun d => map (chunkDoc d)
                               (splitIntoChunks (NewRAG (runes "key")) (Content d)))
                   exampleDocuments).
Proof.
  assert (Hout : fst (@loadExampleDocuments constant (NewRAG (runes "key"), tt))
                 = Returns None) by (vm_compute; reflexivity).
  destruct (@loadExampleDocuments constant (NewRAG (runes "key"), tt))
    as [out [r' w']] eqn:Hrun.
  cbn [fst snd] in *. subst out.
  exact (loadExampleDocuments_success _ _ _ _ Hrun).
Defined.


(** Two sources, the first unreachable: the document of the second is
    indexed and no error is returned. *)
Lemma loadKnowledgeBase_with_sources_witness :
  (fst (loadKnowledgeBase (hostWith twoSources) (NewRAG (runes "key"), []))
   = Returns None
   \/ fst (loadKnowledgeBase (hostWith twoSources) (NewRAG (runes "key"), []))
      = Panics)
  /\ map Source
       (documents
          (snd (loadKnowledgeBase (hostWith twoSources)
                  (NewRAG (runes "key"), []))).1)
     = [runes "Up"].
Proof.
  pose (res := loadKnowledgeBase (hostWith twoSources) (NewRAG (runes "key"), [])).
  destruct (loadKnowledgeBase_with_sources (hostWith twoSources)
              (NewRAG (runes "key")) res.2.1 [] [] res.2.2 twoSources res.1)
    as (Hout & _).
  - reflexivity.
  - discriminate.
  - vm_compute. reflexivity.
  - split; [exact Hout|]. vm_compute. reflexivity.
Defined.

(** ** The search engine: enhanceResults *)

Section Enhance.
Context {B : Backend}.

(** The loop from index [k] on, with [n] indices to visit: [j] analyses are
    obtained, the results at [k .. k+j-1] are rewritten in place and the
    rest of the slice is untouched; the loop succeeds when [j = n]. *)
Lemma enhanceLoop_inv (s : ai.SearchEngine) (query : text) n :
  forall k arr (w : World B) out arr' w',
  length arr = (k + n)%nat ->
  ai.enhanceLoop s query (seq k n) arr w = (out, arr', w') ->
  exists j ys,
    (j <= n)%nat
    /\ arr' = take k arr ++ ys ++ drop (k + j) arr
    /\ Forall2 (@enhanced B s query) (take j (drop k arr)) ys
    /\ (succeeded out = true -> j = n /\ out = Returns (Value arr'))
    /\ (succeeded out = false -> (j < n)%nat).
Proof.
  induction n as [|n IH]; intros k arr w out arr' w' Hlen Hrun.
  - injection Hrun as <- <- <-. exists 0%nat, [].
    rewrite Nat.add_0_r in *. rewrite take_0. simpl.
    rewrite take_drop. repeat split; auto. discriminate.
  - cbn [seq ai.enhanceLoop] in Hrun.
    destruct (arr !! k) as [x|] eqn:Hx.
    2:{ apply lookup_ge_None in Hx. lia. }
    assert (Hmid : arr = take k arr ++ x :: drop (S k) arr)
      by (symmetry; by apply take_drop_middle).
    destruct (ai.analyzeContent s (ai.Content x) query w)
      as [[[analysis|err]|] w1] eqn:Han.
    + set (x' := {| ai.Title := ai.Title x; ai.URL := ai.URL x;
                    ai.Description := ai.Description x;
                    ai.Content := analysis |}) in *.
      assert (Hk : (k < length arr)%nat) by lia.
      apply IH in Hrun as (j & ys & Hj & Harr' & Hall & Hok & Hfail);
        [|rewrite length_insert; lia].
      exists (S j), (x' :: ys).
      rewrite (take_S_r _ _ x') in Harr'
        by (by apply list_lookup_insert_eq).
      rewrite take_insert_ge in Harr' by lia.
      rewrite !drop_insert_lt in Harr', Hall by lia.
      split; [lia|]. split.
      { rewrite Harr', <- app_assoc. simpl.
        by replace (k + S j)%nat with (S k + j)%nat by lia. }
      split.
      { rewrite (drop_S _ _ _ Hx). simpl. constructor; [|exact Hall].
        repeat split. by exists w, w1. }
      split.
      { intros Hs. destruct (Hok Hs) as [-> ->]. done. }
      { intros Hs. specialize (Hfail Hs). lia. }
    + injection Hrun as <- <- <-. exists 0%nat, [].
      rewrite Nat.add_0_r, take_0. simpl. rewrite take_drop.
      split; [lia|]. split; [done|]. split; [constructor|].
      split; [discriminate|]. intros _. lia.
    + injection Hrun as <- <- <-. exists 0%nat, [].
      rewrite Nat.add_0_r, take_0. simpl. rewrite take_drop.
      split; [lia|]. split; [done|]. split; [constructor|].
      split; [discriminate|]. intros _. lia.
Qed.

Lemma enhanced_fields (s : ai.SearchEngine) (query : text) xs ys :
  Forall2 (@enhanced B s query) xs ys ->
  length ys = length xs
  /\ map ai.Title ys = map ai.Title xs
  /\ map ai.URL ys = map ai.URL xs
  /\ map ai.Description ys = map ai.Description xs.
Proof.
  induction 1 as [|x y xs ys (Ht & Hu & Hd & _) _ (IHl & IHt & IHu & IHd)];
    [done|].
  simpl. by rewrite IHl, IHt, IHu, IHd, Ht, Hu, Hd.
Qed.

(** X24. When [enhanceResults] succeeds it returns the slice it was given,
    rewritten in place: as many results, in the same order, each with its
    title, URL and description unchanged and with its content replaced by
    the analysis obtained for the previous content. *)
Theorem enhanceResults_success (s : ai.SearchEngine)
    (results res arr : list ai.SearchResult) (query : text) (w w' : World B) :
  ai.enhanceResults s results query w = (Returns (Value res), arr, w') ->
  res = arr
  /\ Forall2 (@enhanced B s query) results res
  /\ length res = length results
  /\ map ai.Title res = map ai.Title results
  /\ map ai.URL res = map ai.URL results
  /\ map ai.Description res = map ai.Description results.
Proof.
  unfold ai.enhanceResults. intros Hrun.
  apply enhanceLoop_inv in Hrun as (j & ys & Hj & Harr & Hall & Hok & _);
    [|done].
  destruct (Hok eq_refl) as [-> [= ->]].
  rewrite drop_0, firstn_all in Hall. simpl in Harr.
  rewrite drop_all, app_nil_r in Harr. subst arr.
  split; [done|]. split; [done|]. by apply (enhanced_fields s query).
Qed.

(** X25. When [enhanceResults] fails (an analysis returns an error, or the
    call panics) nothing is returned, yet the slice of the caller has been
    written: the results before the failing one carry their analyses, the
    failing one and those after it are untouched, and no title, URL or
    description has changed. *)
Theorem enhanceResults_failure (s : ai.SearchEngine)
    (results arr : list ai.SearchResult) (query : text) (w w' : World B) out :
  ai.enhanceResults s results query w = (out, arr, w') ->
  succeeded out = false ->
  exists j ys,
    (j < length results)%nat
    /\ arr = ys ++ drop j results
    /\ Forall2 (@enhanced B s query) (take j results) ys
    /\ length arr = length results
    /\ map ai.Title arr = map ai.Title results
    /\ map ai.URL arr = map ai.URL results
    /\ map ai.Description arr = map ai.Description results.
Proof.
  unfold ai.enhanceResults. intros Hrun Hfail.
  apply enhanceLoop_inv in Hrun as (j & ys & Hj & Harr & Hall & _ & Hlt);
    [|done].
  specialize (Hlt Hfail). rewrite drop_0 in Hall. simpl in Harr.
  exists j, ys. split; [done|]. split; [done|]. split; [done|].
  destruct (enhanced_fields _ _ _ _ Hall) as (Hl & Ht & Hu & Hd).
  subst arr. rewrite length_app, !map_app, Hl, Ht, Hu, Hd.
  rewrite <- !map_app, take_drop. split; [|done].
  rewrite length_take, length_drop. lia.
Qed.

End Enhance.

(** Two results and a backend that answers twice. *)
Lemma enhanceResults_success_witness :
  map ai.Content
    (ai.enhanceResults (ai.NewSearchEngine (runes "key") (runes "serper"))
       [hit "one"; hit "two"] (runes "scaling") (0%nat : World twoAnswers)).1.2
  = [runes "summary"; runes "summary"]
  /\ map ai.Title
       (ai.enhanceResults (ai.NewSearchEngine (runes "key") (runes "serper"))
          [hit "one"; hit "two"] (runes "scaling") (0%nat : World twoAnswers)).1.2
     = map ai.Title [hit "one"; hit "two"].
Proof.
  split; [reflexivity|].
  apply (@enhanceResults_success twoAnswers
           (ai.NewSearchEngine (runes "key") (runes "serper"))
           [hit "one"; hit "two"]
           (ai.enhanceResults (ai.NewSearchEngine (runes "key") (runes "serper"))
              [hit "one"; hit "two"] (runes "scaling")
              (0%nat : World twoAnswers)).1.2
           (ai.enhanceResults (ai.NewSearchEngine (runes "key") (runes "serper"))
              [hit "one"; hit "two"] (runes "scaling")
              (0%nat : World twoAnswers)).1.2
           (runes "scaling") 0%nat 2%nat).
  reflexivity.
Defined.

(** Three results and a backend whose third answer fails: the first two
    results of the slice are rewritten. *)
Lemma enhanceResults_failure_witness :
  exists j ys,
    (j < length [hit "one"; hit "two"; hit "three"])%nat
    /\ (ai.enhanceResults (ai.NewSearchEngine (runes "key") (runes "serper"))
          [hit "one"; hit "two"; hit "three"] (runes "scaling")
          (0%nat : World twoAnswers)).1.2
       = ys ++ drop j [hit "one"; hit "two"; hit "three"].
Proof.
  destruct (@enhanceResults_failure twoAnswers
              (ai.NewSearchEngine (runes "key") (runes "serper"))
              [hit "one"; hit "two"; hit "three"]
              (ai.enhanceResults (ai.NewSearchEngine (runes "key") (runes "serper"))
                 [hit "one"; hit "two"; hit "three"] (runes "scaling")
                 (0%nat : World twoAnswers)).1.2
              (runes "scaling") 0%nat 3%nat (Returns (Err "rate limit")))
    as (j & ys & Hj & Harr & _).
  - reflexivity.
  - reflexivity.
  - exists j, ys. split; [exact Hj|exact Harr].
Defined.
